(** * Tender-document analyser: extraction pipeline

    A shallow embedding of the JavaScript back ends of the tender-document
    analyser (the Gemini variants: the plain one, the combined synchronous
    one with history, the asynchronous one, and the chunker of [gem.js]),
    followed by the properties of the pipeline that the specification
    states.

    JavaScript strings are sequences of UTF-16 code units; they are modelled
    as [list N], one number per code unit.  [JSON.parse] is a built-in of the
    platform: it is modelled by a total lexer and a pushdown parser written
    after the JSON grammar of ECMA-404. *)

From Stdlib Require Import ZArith NArith List Lia Bool Ascii String.
From stdpp Require Import base option list gmap.
Import ListNotations.

Set Warnings "-register-all".
Local Open Scope N_scope.
Local Open Scope list_scope.

(** ** JavaScript strings *)

Module JS.

Abbreviation jsstring := (list N).

(** A literal of the source, given as a Rocq string of one-byte characters. *)
Definition lit (s : string) : jsstring :=
  map (fun a => N_of_ascii a) (list_ascii_of_string s).

Definition dquote : N := 34.
Definition backtick : N := 96.
Definition space : N := 32.
Definition lbrace : N := 123.
Definition rbrace : N := 125.

(** White space and line terminators of ECMAScript: the set which [\s]
    matches and which [String.prototype.trim] removes. *)
Definition is_ws (c : N) : bool :=
  (9 <=? c) && (c <=? 13)
  || (c =? 32) || (c =? 160) || (c =? 5760)
  || (8192 <=? c) && (c <=? 8202)
  || (c =? 8232) || (c =? 8233) || (c =? 8239) || (c =? 8287)
  || (c =? 12288) || (c =? 65279).

Fixpoint trimStart (s : jsstring) : jsstring :=
  match s with
  | [] => []
  | c :: r => if is_ws c then trimStart r else s
  end.

Fixpoint trimEnd (s : jsstring) : jsstring :=
  match s with
  | [] => []
  | c :: r =>
      match trimEnd r with
      | [] => if is_ws c then [] else [c]
      | r' => c :: r'
      end
  end.

Definition trim (s : jsstring) : jsstring := trimEnd (trimStart s).

(** [s.indexOf(c)] for a one-character needle; [None] stands for [-1]. *)
Fixpoint indexOf (c : N) (s : jsstring) : option nat :=
  match s with
  | [] => None
  | d :: r => if d =? c then Some O else S <$> indexOf c r
  end.

(** [s.lastIndexOf(c)]. *)
Fixpoint lastIndexOf (c : N) (s : jsstring) : option nat :=
  match s with
  | [] => None
  | d :: r =>
      match lastIndexOf c r with
      | Some i => Some (S i)
      | None => if d =? c then Some O else None
      end
  end.

(** [s.slice(a, b)] for indices [0 <= a] and [0 <= b]. *)
Definition slice {A} (a b : nat) (s : list A) : list A :=
  take (b - a) (drop a s).

(** [arr.slice(start)] with a relative start index: a negative index
    counts from the end, and both are clamped to the array. *)
Definition slice_from {A} (start : Z) (l : list A) : list A :=
  let len := Z.of_nat (length l) in
  let k := if (start <? 0)%Z then Z.max (len + start) 0 else Z.min start len in
  drop (Z.to_nat k) l.

(** [s.split(' ')]. *)
Fixpoint split_space (s : jsstring) : list jsstring :=
  match s with
  | [] => [[]]
  | c :: r =>
      if c =? space then [] :: split_space r
      else match split_space r with
           | w :: ws => (c :: w) :: ws
           | [] => [[c]]
           end
  end.

(** [arr.join(' ')]. *)
Fixpoint join_space (ws : list jsstring) : jsstring :=
  match ws with
  | [] => []
  | [w] => w
  | w :: ws' => w ++ space :: join_space ws'
  end.

(** [s.replace(/\s+/g, ' ')]: every maximal run of white space becomes one
    space.  [in_run] tells that the previous character was white space. *)
Fixpoint collapse_ws (in_run : bool) (s : jsstring) : jsstring :=
  match s with
  | [] => []
  | c :: r =>
      if is_ws c
      then if in_run then collapse_ws true r else space :: collapse_ws true r
      else c :: collapse_ws false r
  end.

(** [s.replace(/[\u00A0]/g, ' ')]. *)
Definition replace_nbsp (s : jsstring) : jsstring :=
  map (fun c => if c =? 160 then space else c) s.

Fixpoint starts_with (p s : jsstring) : bool :=
  match p, s with
  | [], _ => true
  | _ :: _, [] => false
  | a :: p', b :: s' => (a =? b) && starts_with p' s'
  end.

(** Does [p] occur somewhere in [s]? *)
Fixpoint occurs (p s : jsstring) : bool :=
  starts_with p s ||
  match s with
  | [] => false
  | _ :: r => occurs p r
  end.

(** [s.replace(/p/g, '')] for a literal pattern [p] of [S n] characters:
    the occurrences are taken from left to right and do not overlap.
    [skip] counts the characters of the current occurrence that are still
    to be dropped. *)
Fixpoint delete_all (p : jsstring) (n : nat) (skip : nat) (s : jsstring)
  : jsstring :=
  match s with
  | [] => []
  | c :: r =>
      match skip with
      | S k => delete_all p n k r
      | O => if starts_with p s then delete_all p n n r
             else c :: delete_all p n O r
      end
  end.

End JS.
Import JS.

(** ** JSON values and [JSON.parse] *)

Module Json.

(** A number keeps the exact decimal its token denotes,
    [(-1)^neg * mant * 10^expo]; the rounding to binary64 that JavaScript
    applies is not modelled, so equality here is finer than [===]. *)
Inductive json : Type :=
| JNull
| JBool (b : bool)
| JNum (neg : bool) (mant : N) (expo : Z)
| JStr (s : jsstring)
| JArr (elems : list json)
| JObj (members : list (jsstring * json)).

(** *** Objects: own properties in insertion order *)

Definition key_eqb (a b : jsstring) : bool := bool_decide (a = b).

Fixpoint obj_get (o : list (jsstring * json)) (k : jsstring) : option json :=
  match o with
  | [] => None
  | (k', v) :: r => if key_eqb k' k then Some v else obj_get r k
  end.

(** [k in o] for an own property. *)
Definition obj_has (o : list (jsstring * json)) (k : jsstring) : bool :=
  match obj_get o k with Some _ => true | None => false end.

(** [o[k] = v]: an existing property keeps its place, a new one is added
    at the end. *)
Fixpoint obj_set (o : list (jsstring * json)) (k : jsstring) (v : json)
  : list (jsstring * json) :=
  match o with
  | [] => [(k, v)]
  | (k', v') :: r =>
      if key_eqb k' k then (k', v) :: r else (k', v') :: obj_set r k v
  end.

(** *** Lexer: one character at a time *)

Inductive token : Type :=
| TLBrace | TRBrace | TLBrack | TRBrack | TColon | TComma
| TStr (s : jsstring)
| TNum (neg : bool) (mant : N) (expo : Z)
| TTrue | TFalse | TNull.

(** Where the lexer stands inside a number token: an optional minus sign,
    an integer part (a lone zero, or digits that do not start with zero),
    an optional fraction (a dot and digits), an optional exponent (e or E,
    an optional sign, digits). *)
Inductive nphase : Type :=
| NMinus | NZero | NInt | NDot | NFrac | NE | NESign | NExp.

Record num : Type := mkNum {
  n_neg : bool; n_mant : N; n_scale : Z; n_eneg : bool; n_exp : N }.

Inductive lstate : Type :=
| LTop
| LStr (acc : jsstring)
| LEsc (acc : jsstring)
| LHex (acc : jsstring) (k : nat) (v : N)
| LNum (ph : nphase) (n : num)
| LLit (rest : jsstring) (t : token).

Definition is_digit (c : N) : bool := (48 <=? c) && (c <=? 57).
Definition digit_val (c : N) : N := c - 48.

Definition hex_val (c : N) : option N :=
  if is_digit c then Some (c - 48)
  else if (97 <=? c) && (c <=? 102) then Some (c - 87)
  else if (65 <=? c) && (c <=? 70) then Some (c - 55)
  else None.

Definition json_ws (c : N) : bool :=
  (c =? 32) || (c =? 9) || (c =? 10) || (c =? 13).

Definition num_token (n : num) : token :=
  TNum (n_neg n) (n_mant n)
       ((if n_eneg n then - Z.of_N (n_exp n) else Z.of_N (n_exp n))
        - n_scale n)%Z.

Definition num0 (neg : bool) (d : N) : num := mkNum neg d 0 false 0.

(** A character met outside any token. *)
Definition lex_top (c : N) : option (list token * lstate) :=
  if json_ws c then Some ([], LTop)
  else if c =? 123 then Some ([TLBrace], LTop)
  else if c =? 125 then Some ([TRBrace], LTop)
  else if c =? 91 then Some ([TLBrack], LTop)
  else if c =? 93 then Some ([TRBrack], LTop)
  else if c =? 58 then Some ([TColon], LTop)
  else if c =? 44 then Some ([TComma], LTop)
  else if c =? 34 then Some ([], LStr [])
  else if c =? 45 then Some ([], LNum NMinus (num0 true 0))
  else if c =? 48 then Some ([], LNum NZero (num0 false 0))
  else if is_digit c then Some ([], LNum NInt (num0 false (digit_val c)))
  else if c =? 116 then Some ([], LLit (lit "rue") TTrue)
  else if c =? 102 then Some ([], LLit (lit "alse") TFalse)
  else if c =? 110 then Some ([], LLit (lit "ull") TNull)
  else None.

(** The number token ends before [c], which is then read afresh. *)
Definition num_done (n : num) (c : N) : option (list token * lstate) :=
  match lex_top c with
  | Some (ts, st) => Some (num_token n :: ts, st)
  | None => None
  end.

Definition push_mant (n : num) (c : N) (frac : bool) : num :=
  mkNum (n_neg n) (10 * n_mant n + digit_val c)
        (if frac then n_scale n + 1 else n_scale n)%Z (n_eneg n) (n_exp n).

Definition push_exp (n : num) (c : N) : num :=
  mkNum (n_neg n) (n_mant n) (n_scale n) (n_eneg n)
        (10 * n_exp n + digit_val c).

Definition set_eneg (n : num) (b : bool) : num :=
  mkNum (n_neg n) (n_mant n) (n_scale n) b (n_exp n).

Definition is_e (c : N) : bool := (c =? 101) || (c =? 69).

Definition lex_num (ph : nphase) (n : num) (c : N)
  : option (list token * lstate) :=
  match ph with
  | NMinus =>
      if c =? 48 then Some ([], LNum NZero n)
      else if is_digit c then Some ([], LNum NInt (push_mant n c false))
      else None
  | NZero =>
      if c =? 46 then Some ([], LNum NDot n)
      else if is_e c then Some ([], LNum NE n)
      else num_done n c
  | NInt =>
      if is_digit c then Some ([], LNum NInt (push_mant n c false))
      else if c =? 46 then Some ([], LNum NDot n)
      else if is_e c then Some ([], LNum NE n)
      else num_done n c
  | NDot =>
      if is_digit c then Some ([], LNum NFrac (push_mant n c true)) else None
  | NFrac =>
      if is_digit c then Some ([], LNum NFrac (push_mant n c true))
      else if is_e c then Some ([], LNum NE n)
      else num_done n c
  | NE =>
      if c =? 43 then Some ([], LNum NESign n)
      else if c =? 45 then Some ([], LNum NESign (set_eneg n true))
      else if is_digit c then Some ([], LNum NExp (push_exp n c))
      else None
  | NESign =>
      if is_digit c then Some ([], LNum NExp (push_exp n c)) else None
  | NExp =>
      if is_digit c then Some ([], LNum NExp (push_exp n c))
      else num_done n c
  end.

(** The character after a backslash inside a string. *)
Definition lex_escape (acc : jsstring) (c : N)
  : option (list token * lstate) :=
  if (c =? 34) || (c =? 92) || (c =? 47) then Some ([], LStr (c :: acc))
  else if c =? 98 then Some ([], LStr (8 :: acc))
  else if c =? 102 then Some ([], LStr (12 :: acc))
  else if c =? 110 then Some ([], LStr (10 :: acc))
  else if c =? 114 then Some ([], LStr (13 :: acc))
  else if c =? 116 then Some ([], LStr (9 :: acc))
  else if c =? 117 then Some ([], LHex acc 0 0)
  else None.

Definition lex_char (st : lstate) (c : N) : option (list token * lstate) :=
  match st with
  | LTop => lex_top c
  | LStr acc =>
      if c =? 34 then Some ([TStr (rev acc)], LTop)
      else if c =? 92 then Some ([], LEsc acc)
      else if c <? 32 then None
      else Some ([], LStr (c :: acc))
  | LEsc acc => lex_escape acc c
  | LHex acc k v =>
      match hex_val c with
      | Some h =>
          let v' := 16 * v + h in
          if (k =? 3)%nat then Some ([], LStr (v' :: acc))
          else Some ([], LHex acc (S k) v')
      | None => None
      end
  | LNum ph n => lex_num ph n c
  | LLit rest t =>
      match rest with
      | [] => match lex_top c with
              | Some (ts, st') => Some (t :: ts, st')
              | None => None
              end
      | d :: rest' => if c =? d then Some ([], LLit rest' t) else None
      end
  end.

(** The end of the text. *)
Definition lex_end (st : lstate) : option (list token) :=
  match st with
  | LTop => Some []
  | LNum ph n =>
      match ph with
      | NZero | NInt | NFrac | NExp => Some [num_token n]
      | _ => None
      end
  | LLit [] t => Some [t]
  | _ => None
  end.

Fixpoint lex (st : lstate) (s : jsstring) : option (list token) :=
  match s with
  | [] => lex_end st
  | c :: r =>
      match lex_char st c with
      | Some (ts, st') =>
          match lex st' r with
          | Some ts' => Some (ts ++ ts')
          | None => None
          end
      | None => None
      end
  end.

(** *** Parser: a pushdown automaton over the tokens *)

(** An open container: an array with the elements read so far, an object
    waiting for a key or a comma, an object waiting for the value of a
    key. *)
Inductive frame : Type :=
| FArr (elems : list json)
| FObj (members : list (jsstring * json))
| FObjV (members : list (jsstring * json)) (k : jsstring).

Inductive mode : Type :=
| MValue      (* a value must start *)
| MArrFirst   (* after [: a value or ] *)
| MObjFirst   (* after {: a key or } *)
| MObjKey     (* after a comma in an object: a key *)
| MColon      (* after a key *)
| MAfter      (* after a member or an element: a comma or the closer *)
| MDone (v : json).

(** A value [v] is complete below the stack [st]. *)
Definition complete (v : json) (st : list frame)
  : option (list frame * mode) :=
  match st with
  | [] => Some ([], MDone v)
  | FArr es :: st' => Some (FArr (es ++ [v]) :: st', MAfter)
  | FObjV ms k :: st' => Some (FObj (obj_set ms k v) :: st', MAfter)
  | FObj _ :: _ => None
  end.

Definition start_value (t : token) (st : list frame)
  : option (list frame * mode) :=
  match t with
  | TStr s => complete (JStr s) st
  | TNum g m e => complete (JNum g m e) st
  | TTrue => complete (JBool true) st
  | TFalse => complete (JBool false) st
  | TNull => complete JNull st
  | TLBrack => Some (FArr [] :: st, MArrFirst)
  | TLBrace => Some (FObj [] :: st, MObjFirst)
  | _ => None
  end.

Definition close_array (st : list frame) : option (list frame * mode) :=
  match st with
  | FArr es :: st' => complete (JArr es) st'
  | _ => None
  end.

Definition close_object (st : list frame) : option (list frame * mode) :=
  match st with
  | FObj ms :: st' => complete (JObj ms) st'
  | _ => None
  end.

Definition take_key (t : token) (st : list frame)
  : option (list frame * mode) :=
  match t, st with
  | TStr k, FObj ms :: st' => Some (FObjV ms k :: st', MColon)
  | _, _ => None
  end.

Definition parse_token (st : list frame) (m : mode) (t : token)
  : option (list frame * mode) :=
  match m with
  | MValue => start_value t st
  | MArrFirst =>
      match t with
      | TRBrack => close_array st
      | _ => start_value t st
      end
  | MObjFirst =>
      match t with
      | TRBrace => close_object st
      | _ => take_key t st
      end
  | MObjKey => take_key t st
  | MColon =>
      match t with
      | TColon => Some (st, MValue)
      | _ => None
      end
  | MAfter =>
      match t, st with
      | TComma, FArr _ :: _ => Some (st, MValue)
      | TComma, FObj _ :: _ => Some (st, MObjKey)
      | TRBrack, _ => close_array st
      | TRBrace, _ => close_object st
      | _, _ => None
      end
  | MDone _ => None
  end.

Fixpoint parse_tokens (st : list frame) (m : mode) (ts : list token)
  : option json :=
  match ts with
  | [] => match m with MDone v => Some v | _ => None end
  | t :: ts' =>
      match parse_token st m t with
      | Some (st', m') => parse_tokens st' m' ts'
      | None => None
      end
  end.

(** [JSON.parse(text)]; [None] stands for the [SyntaxError] it throws. *)
Definition JSON_parse (text : jsstring) : option json :=
  match lex LTop text with
  | Some ts => parse_tokens [] MValue ts
  | None => None
  end.

End Json.
Import Json.

(** ** Exceptions and results *)

Module Result.

(** What a [throw] carries.  The text of the message of an error raised by
    the engine itself is left to the engine. *)
Inductive exn : Type :=
| SyntaxError
| TypeError
| Error (message : jsstring).

(** [e.message]. *)
Inductive message : Type :=
| Text (s : jsstring)
| EngineText (e : exn).

Definition message_of (e : exn) : message :=
  match e with
  | Error m => Text m
  | _ => EngineText e
  end.

(** A call either throws or returns. *)
Definition result (A : Type) : Type := exn + A.

Definition rbind {A B} (r : result A) (f : A -> result B) : result B :=
  match r with
  | inl e => inl e
  | inr a => f a
  end.

Fixpoint rmap {A B} (f : A -> result B) (l : list A) : result (list B) :=
  match l with
  | [] => inr []
  | x :: r =>
      rbind (f x) (fun y => rbind (rmap f r) (fun ys => inr (y :: ys)))
  end.

End Result.
Import Result.

(** ** The helpers of the analysers *)

Module Helpers.

(** [const FIELD_LIST = [...]], the same list in every variant. *)
Definition FIELD_LIST : list jsstring :=
  map lit
    [ "ClientName"; "FundingAgency"; "BiddingSystem"; "NameOfWork";
      "ProjectLocation"; "CompletionPeriod"; "EstimatedCost";
      "TenderDocumentCost"; "EMD"; "ImportantDates"; "BidValidity";
      "TenderSecurity"; "JointVenture"; "PowerOfAttorney";
      "GroundsForBidRejection"; "EligibilityCriteria"; "SiteVisit";
      "GeotechnicalReports"; "LandAvailability"; "OtherLandAvailability"
    ]%string.

(** [txt.replace(/\s+/g, ' ').replace(/[\u00A0]/g, ' ').trim()]. *)
Definition preprocess (txt : jsstring) : jsstring :=
  trim (replace_nbsp (collapse_ws false txt)).

(** The pattern of the regular expression with which [extractJson] cleans
    the reply: six backticks. *)
Definition fence : jsstring := repeat backtick 6.

Definition ends_with (p s : jsstring) : bool :=
  starts_with (rev p) (rev s).

(** [m.replace(/p$/, '')] for a literal [p]. *)
Definition delete_suffix (p m : jsstring) : jsstring :=
  if ends_with p m then take (length m - length p) m else m.

(** [s.replace(/p/g, f)] with a function [f] of the matched text, for a
    literal pattern [p] of [S n] characters. *)
Fixpoint replace_all (p : jsstring) (n : nat) (f : jsstring -> jsstring)
         (skip : nat) (s : jsstring) : jsstring :=
  match s with
  | [] => []
  | c :: r =>
      match skip with
      | S k => replace_all p n f k r
      | O => if starts_with p s then f p ++ replace_all p n f n r
             else c :: replace_all p n f O r
      end
  end.

(** The first statement of [extractJson] in the asynchronous and in the
    combined variant: [text.replace(/``````/g, '').trim()]. *)
Definition clean_reply (text : jsstring) : jsstring :=
  trim (delete_all fence 5 0 text).

(** The same statement in the plain variant, where the replacement is the
    function [m => m.replace(/``````$/, '')]. *)
Definition clean_reply_fn (text : jsstring) : jsstring :=
  trim (replace_all fence 5 (delete_suffix fence) 0 text).

(** The rest of [extractJson], the same in every variant. *)
Definition parse_or_braces (clean : jsstring) : result json :=
  match JSON_parse clean with
  | Some v => inr v
  | None =>
      match indexOf lbrace clean, lastIndexOf rbrace clean with
      | Some first, Some last =>
          match JSON_parse (slice first (last + 1) clean) with
          | Some v => inr v
          | None => inl SyntaxError
          end
      | _, _ => inl (Error (lit "Model response is not valid JSON"))
      end
  end.

(** [extractJson] of the asynchronous and of the combined variant. *)
Definition extractJson (text : jsstring) : result json :=
  parse_or_braces (clean_reply text).

(** [extractJson] of the plain variant. *)
Definition extractJson_plain (text : jsstring) : result json :=
  parse_or_braces (clean_reply_fn text).

(** [for (const k of FIELD_LIST) if (!(k in data)) data[k] = null;]
    on the properties of an object. *)
Definition backfill_key (o : list (jsstring * json)) (k : jsstring)
  : list (jsstring * json) :=
  if obj_has o k then o else obj_set o k JNull.

Definition backfill_members (o : list (jsstring * json))
  : list (jsstring * json) :=
  fold_left backfill_key FIELD_LIST o.

(** The same loop on whatever [extractJson] returned: [in] throws on a
    primitive; on an array the loop sets named properties, which are not
    elements and are lost when the array is serialised. *)
Definition backfill (data : json) : result json :=
  match data with
  | JObj o => inr (JObj (backfill_members o))
  | JArr l => inr (JArr l)
  | _ => inl TypeError
  end.

(** *** Truthiness and property reads *)

(** Does the decimal [mant * 10^expo] round to zero in binary64?  It does
    when it is at most half of the least subnormal number, [2^-1075]. *)
Definition rounds_to_zero (mant : N) (expo : Z) : bool :=
  (mant =? 0) ||
  ((expo <? 0)%Z &&
   (Z.of_N mant * 2 ^ 1075 <=? 10 ^ (- expo))%Z).

Definition truthy (v : json) : bool :=
  match v with
  | JNull => false
  | JBool b => b
  | JNum _ m e => negb (rounds_to_zero m e)
  | JStr s => match s with [] => false | _ => true end
  | JArr _ | JObj _ => true
  end.

(** [v.k] for the property names the handlers read ([submittals], [item],
    [page], [reason]), none of which a built-in prototype defines: [None]
    stands for [undefined], and reading a property of [null] throws. *)
Definition get_prop (v : json) (k : jsstring) : result (option json) :=
  match v with
  | JNull => inl TypeError
  | JObj o => inr (obj_get o k)
  | _ => inr None
  end.

(** [x || d]. *)
Definition or_else (x : option json) (d : json) : json :=
  match x with
  | Some v => if truthy v then v else d
  | None => d
  end.

(** [x == null ? null : x]. *)
Definition null_if_absent (x : option json) : json :=
  match x with
  | Some v => v
  | None => JNull
  end.

(** The function mapped over the submittals in [processContract]:
    [x => ({ item: x.item || '', page: x.page == null ? null : x.page,
    reason: x.reason || '' })]. *)
Definition normalize_submittal (x : json) : result json :=
  rbind (get_prop x (lit "item")) (fun item =>
  rbind (get_prop x (lit "page")) (fun page =>
  rbind (get_prop x (lit "reason")) (fun reason =>
    inr (JObj [ (lit "item", or_else item (JStr []));
                (lit "page", null_if_absent page);
                (lit "reason", or_else reason (JStr [])) ])))).

(** [submittalsData.submittals || []]. *)
Definition submittals_or_empty (submittalsData : json) : result json :=
  rbind (get_prop submittalsData (lit "submittals")) (fun s =>
    inr (or_else s (JArr []))).

(** [arr.map(f)]; a value that is not an array has no [map]. *)
Definition array_map (f : json -> result json) (v : json)
  : result (list json) :=
  match v with
  | JArr l => rmap f l
  | _ => inl TypeError
  end.

(** The submittals as [processContract] stores them. *)
Definition normalized_submittals (submittalsData : json)
  : result (list json) :=
  rbind (submittals_or_empty submittalsData) (array_map normalize_submittal).

End Helpers.
Import Helpers.

(** ** The chunkers *)

Module Chunker.

(** The characters that end a sentence: [.], [!] and [?]. *)
Definition is_term (c : N) : bool := (c =? 46) || (c =? 33) || (c =? 63).

(** [txt.match(/[^.!?]+[.!?]+/g)], an empty list standing for [null].
    [body] holds, reversed, the characters of the current match that do
    not end a sentence, [terms] those that do; a match needs one of each
    kind at least, so terminators ahead of any body are skipped and a body
    that no terminator follows is left out. *)
Fixpoint match_sentences (body terms : jsstring) (s : jsstring)
  : list jsstring :=
  match s with
  | [] =>
      match terms with
      | [] => []
      | _ => [rev body ++ rev terms]
      end
  | c :: r =>
      if is_term c then
        match body with
        | [] => match_sentences [] [] r
        | _ => match_sentences body (c :: terms) r
        end
      else
        match terms with
        | [] => match_sentences (c :: body) [] r
        | _ => (rev body ++ rev terms) :: match_sentences [c] [] r
        end
  end.

(** [txt.match(...) || [txt]]. *)
Definition sentences (txt : jsstring) : list jsstring :=
  match match_sentences [] [] txt with
  | [] => [txt]
  | l => l
  end.

Definition nonempty (s : jsstring) : bool :=
  match s with [] => false | _ => true end.

(** [w.slice(-Math.floor(ov / 6)).join(' ')] on [cur.split(' ')]. *)
Definition overlap (ov : Z) (cur : jsstring) : jsstring :=
  join_space (slice_from (- (ov / 6))%Z (split_space cur)).

(** [(cur ? ' ' : '')]. *)
Definition separator (cur : jsstring) : jsstring :=
  if nonempty cur then [space] else [].

Definition len (s : jsstring) : Z := Z.of_nat (length s).

(** The body of the loop of [smartChunks], on the pair of [out] and
    [cur]. *)
Definition smartChunks_step (max ov : Z)
           (st : list jsstring * jsstring) (sent : jsstring)
  : list jsstring * jsstring :=
  let '(out, cur) := st in
  if (len cur + len sent >? max)%Z && nonempty cur
  then (out ++ [trim cur], overlap ov cur ++ space :: sent)
  else (out, cur ++ separator cur ++ trim sent).

(** [smartChunks(txt, max, ov)] of the plain variant. *)
Definition smartChunks (txt : jsstring) (max ov : Z) : list jsstring :=
  if (len txt <=? max)%Z then [txt]
  else
    let '(out, cur) :=
      fold_left (smartChunks_step max ov) (sentences txt) ([], []) in
    if nonempty (trim cur) then out ++ [trim cur] else out.

(** The body of the loop of [smartChunkText], on the pair of [chunks] and
    [currentChunk]. *)
Definition smartChunkText_step (maxChunkSize overlapSize : Z)
           (st : list jsstring * jsstring) (sentence : jsstring)
  : list jsstring * jsstring :=
  let '(chunks, currentChunk) := st in
  let cleanSentence := trim sentence in
  if (len currentChunk + len cleanSentence >? maxChunkSize)%Z
     && (0 <? len currentChunk)%Z
  then (chunks ++ [trim currentChunk],
        overlap overlapSize (trim currentChunk) ++ space :: cleanSentence)
  else (chunks, currentChunk ++ separator currentChunk ++ cleanSentence).

(** [smartChunkText(text, maxChunkSize, overlapSize)] of [gem.js]. *)
Definition smartChunkText (text : jsstring) (maxChunkSize overlapSize : Z)
  : list jsstring :=
  if (len text <=? maxChunkSize)%Z then [text]
  else
    let '(chunks, currentChunk) :=
      fold_left (smartChunkText_step maxChunkSize overlapSize)
                (sentences text) ([], []) in
    let chunks' :=
      if nonempty (trim currentChunk) then chunks ++ [trim currentChunk]
      else chunks in
    match chunks' with
    | [] => [text]
    | _ => chunks'
    end.

(** The default values of the parameters. *)
Definition default_max : Z := 8000.
Definition default_ov : Z := 300.

End Chunker.
Import Chunker.

(** ** Handlers as traces of effects *)

Module Effects.

(** A prompt is kept as the name of the template that builds it, applied
    to its arguments: no property below depends on the text of the
    templates. *)
Inductive prompt : Type :=
| buildPrompt (name txt : jsstring)
| submittalPrompt (name txt : jsstring).

(** [{ generationConfig: { temperature: 0.1, maxOutputTokens: n } }],
    the temperature in tenths. *)
Record generationConfig : Type := mkConfig {
  temperature_tenths : Z;
  maxOutputTokens : Z }.

(** What [generateContent] resolves to: an object whose [response.text()]
    returns the reply or throws. *)
Definition reply : Type := result jsstring.

(** A computation that performs effects of type [E] in order and then
    throws or returns. *)
Definition M (E A : Type) : Type := list E * result A.

Definition ret {E A} (a : A) : M E A := ([], inr a).
Definition throw {E A} (e : exn) : M E A := ([], inl e).
Definition emit {E} (ev : E) : M E unit := ([ev], inr tt).
Definition lift {E A} (r : result A) : M E A := ([], r).

Definition bind {E A B} (m : M E A) (f : A -> M E B) : M E B :=
  match m with
  | (l, inl e) => (l, inl e)
  | (l, inr a) => let '(l', r) := f a in (l ++ l', r)
  end.

(** [try { m } catch (e) { h e }]. *)
Definition try_catch {E A} (m : M E A) (h : exn -> M E A) : M E A :=
  match m with
  | (l, inl e) => let '(l', r) := h e in (l ++ l', r)
  | (l, inr a) => (l, inr a)
  end.

(** An effect whose outcome the environment decides: the event is logged,
    then the call throws or returns. *)
Definition call {E A} (ev : E) (outcome : result A) : M E A :=
  ([ev], outcome).

Definition trace {E A} (m : M E A) : list E := fst m.
Definition outcome {E A} (m : M E A) : result A := snd m.

End Effects.
Import Effects.

Notation "x <- m ;; k" := (bind m (fun x => k))
  (at level 100, m at next level, right associativity).
Notation "m ;;; k" := (bind m (fun _ => k))
  (at level 100, right associativity).

(** ** The combined synchronous analyser (with history) *)

Module Combined.

Definition id : Type := nat.

(** What the handler hands to [new Contract(...)]; the casts that the
    store applies on [save] are not modelled. *)
Record contract : Type := mkContract {
  pdfName : jsstring;
  fields : json;
  submittals : json }.

Inductive body : Type :=
| ErrorBody (error : message)
| SummaryBody (_id : id) (doc : contract).

Inductive event : Type :=
| PdfParse
| Generate (p : prompt) (cfg : generationConfig)
| Sleep (ms : Z)
| Save (doc : contract)
| Respond (code : Z) (b : body).

(** The request and what the outside world answers at each call of the
    handler. *)
Record env : Type := mkEnv {
  file : option jsstring;            (* [req.file.originalname], if a file came *)
  pdf_text : result (option jsstring); (* [(await pdf(buffer)).text] *)
  submittals_reply : result reply;   (* the call with [submittalPrompt] *)
  fields_reply : result reply;       (* the call with [buildPrompt] *)
  saved_id : result id }.            (* [doc._id] after [save()] *)

(** [parsed.text || '']. *)
Definition text_or_empty (t : option jsstring) : jsstring :=
  match t with Some s => s | None => [] end.

(** [app.post('/api/summarize', ...)]. *)
Definition post_summarize (w : env) : M event unit :=
  try_catch
    (match file w with
     | None => emit (Respond 400 (ErrorBody (Text (lit "No PDF uploaded"))))
     | Some pdfName =>
         parsed <- call PdfParse (pdf_text w) ;;
         let text := preprocess (text_or_empty parsed) in
         match text with
         | [] =>
             emit (Respond 400 (ErrorBody (Text (lit "Empty/non-text PDF"))))
         | _ =>
             submittalsResponse <-
               call (Generate (submittalPrompt pdfName text) (mkConfig 1 1024))
                    (submittals_reply w) ;;
             emit (Sleep 15000) ;;;
             fieldsResponse <-
               call (Generate (buildPrompt pdfName text) (mkConfig 1 2048))
                    (fields_reply w) ;;
             fieldsText <- lift fieldsResponse ;;
             parsedFields <- lift (extractJson fieldsText) ;;
             fieldsData <- lift (backfill parsedFields) ;;
             submittalsText <- lift submittalsResponse ;;
             submittalsData <- lift (extractJson submittalsText) ;;
             submittals <- lift (submittals_or_empty submittalsData) ;;
             let doc := mkContract pdfName fieldsData submittals in
             _id <- call (Save doc) (saved_id w) ;;
             emit (Respond 200 (SummaryBody _id doc))
         end
     end)
    (fun e => emit (Respond 500 (ErrorBody (message_of e)))).

End Combined.

(** ** The asynchronous analyser *)

Module Async.

Definition id : Type := nat.

Inductive status : Type := pending | processing | completed | failed.

(** A document of the collection [contracts], as [ContractSchema]
    declares it. *)
Record contract : Type := mkContract {
  pdfName : jsstring;
  fields : option json;
  submittals : option (list json);
  status_of : status;
  errorMessage : option message }.

(** The second argument of [findByIdAndUpdate]: the paths to set. *)
Record patch : Type := mkPatch {
  set_fields : option json;
  set_submittals : option (list json);
  set_status : option status;
  set_errorMessage : option message }.

Definition apply_patch (p : patch) (c : contract) : contract :=
  mkContract (pdfName c)
    (match set_fields p with Some f => Some f | None => fields c end)
    (match set_submittals p with Some s => Some s | None => submittals c end)
    (match set_status p with Some s => s | None => status_of c end)
    (match set_errorMessage p with Some m => Some m | None => errorMessage c end).

(** [new Contract({ pdfName, status: 'pending' })]: an array path of the
    schema starts as the empty array. *)
Definition new_contract (name : jsstring) : contract :=
  mkContract name None (Some []) pending None.

Inductive body : Type :=
| ErrorBody (error : message)
| PendingBody (_id : id) (name : jsstring)
| StatusBody (_id : id) (name : jsstring) (st : status)
             (error : option message)
             (hasFields : bool) (hasSubmittals : option bool).

Inductive event : Type :=
| PdfParse
| Generate (p : prompt) (cfg : generationConfig)
| Sleep (ms : Z)
| Save (_id : id) (doc : contract)
| Update (_id : id) (p : patch)
| Spawn (_id : id)
| Respond (code : Z) (b : body).

(** What the outside world answers at each call of [processContract];
    a store operation that throws changes nothing. *)
Record env : Type := mkEnv {
  update_processing : result unit;
  pdf_text : result (option jsstring);
  update_empty : result unit;
  submittals_reply : result reply;
  fields_reply : result reply;
  update_completed : result unit;
  update_failed : result unit }.

(** A store operation is logged when it succeeds. *)
Definition store_op (ev : event) (r : result unit) : M event unit :=
  match r with
  | inr _ => emit ev
  | inl e => throw e
  end.

Definition status_patch (s : status) : patch :=
  mkPatch None None (Some s) None.

Definition failed_patch (m : message) : patch :=
  mkPatch None None (Some failed) (Some m).

Definition completed_patch (f : json) (s : list json) : patch :=
  mkPatch (Some f) (Some s) (Some completed) None.

(** [async function processContract(docId, pdfBuffer, pdfName)]. *)
Definition processContract (w : env) (docId : id) (pdfName : jsstring)
  : M event unit :=
  try_catch
    (store_op (Update docId (status_patch processing))
              (update_processing w) ;;;
     parsed <- call PdfParse (pdf_text w) ;;
     let text := preprocess (Combined.text_or_empty parsed) in
     match text with
     | [] =>
         store_op
           (Update docId (failed_patch (Text (lit "Empty or non-text PDF"))))
           (update_empty w)
     | _ =>
         submittalsResponse <-
           call (Generate (submittalPrompt pdfName text) (mkConfig 1 1024))
                (submittals_reply w) ;;
         emit (Sleep 15000) ;;;
         fieldsResponse <-
           call (Generate (buildPrompt pdfName text) (mkConfig 1 2048))
                (fields_reply w) ;;
         fieldsText <- lift fieldsResponse ;;
         parsedFields <- lift (extractJson fieldsText) ;;
         fieldsData <- lift (backfill parsedFields) ;;
         submittalsText <- lift submittalsResponse ;;
         submittalsData <- lift (extractJson submittalsText) ;;
         submittals <- lift (normalized_submittals submittalsData) ;;
         store_op (Update docId (completed_patch fieldsData submittals))
                  (update_completed w)
     end)
    (fun e =>
       store_op (Update docId (failed_patch (message_of e)))
                (update_failed w)).

(** The request of an upload and the answers of the outside world. *)
Record upload : Type := mkUpload {
  file : option jsstring;     (* [req.file.originalname], if a file came *)
  saved_id : result id;       (* [doc._id] after [save()] *)
  background : env }.

(** [app.post('/api/summarize', ...)]: the document is saved as pending,
    [processContract] is started and not awaited, and the reply leaves at
    once. *)
Definition post_summarize (u : upload) : M event unit :=
  try_catch
    (match file u with
     | None => emit (Respond 400 (ErrorBody (Text (lit "No PDF uploaded"))))
     | Some pdfName =>
         _id <- lift (saved_id u) ;;
         emit (Save _id (new_contract pdfName)) ;;;
         emit (Spawn _id) ;;;
         emit (Respond 200 (PendingBody _id pdfName))
     end)
    (fun e => emit (Respond 500 (ErrorBody (message_of e)))).

(** [hasFields: !!doc.fields]. *)
Definition hasFields (doc : contract) : bool :=
  match fields doc with
  | Some v => truthy v
  | None => false
  end.

(** [hasSubmittals: doc.submittals && doc.submittals.length > 0];
    [None] stands for [undefined]. *)
Definition hasSubmittals (doc : contract) : option bool :=
  match submittals doc with
  | Some l => Some (0 <? length l)%nat
  | None => None
  end.

(** [doc.errorMessage || null]; [None] stands for [null]. *)
Definition message_or_null (m : option message) : option message :=
  match m with
  | Some (Text []) => None
  | _ => m
  end.

(** [app.get('/api/status/:id', ...)] on the collection [db]. *)
Definition get_status (db : gmap id contract) (i : id) : Z * body :=
  match db !! i with
  | None => (404%Z, ErrorBody (Text (lit "Not found")))
  | Some doc =>
      (200%Z,
       StatusBody i (pdfName doc) (status_of doc)
                  (message_or_null (errorMessage doc))
                  (hasFields doc) (hasSubmittals doc))
  end.

(** *** The collection and the running tasks *)

(** The effect of one event on the collection. *)
Definition store_event (ev : event) (db : gmap id contract)
  : gmap id contract :=
  match ev with
  | Save i doc => <[i := doc]> db
  | Update i p =>
      match db !! i with
      | Some doc => <[i := apply_patch p doc]> db
      | None => db
      end
  | _ => db
  end.

Definition store_events (evs : list event) (db : gmap id contract)
  : gmap id contract :=
  fold_left (fun d ev => store_event ev d) evs db.

(** The server between two events: the collection, and for every
    [processContract] under way its [docId] and the events it has still
    to perform.  What a task does next depends on the answers it gets,
    never on the collection, so its events are fixed by its
    environment. *)
Record server : Type := mkServer {
  db : gmap id contract;
  tasks : list (id * list event) }.

Inductive step : server -> server -> Prop :=
| step_upload (s : server) (u : upload) (name : jsstring) (i : id) :
    file u = Some name ->
    saved_id u = inr i ->
    db s !! i = None ->
    step s (mkServer
              (store_events (trace (post_summarize u)) (db s))
              (tasks s ++ [(i, trace (processContract (background u) i name))]))
| step_task (s : server) (before after : list (id * list event))
            (i : id) (ev : event) (rest : list event) :
    tasks s = before ++ (i, ev :: rest) :: after ->
    step s (mkServer (store_event ev (db s))
                     (before ++ (i, rest) :: after))
| step_read (s : server) : step s s.

Inductive reachable : server -> Prop :=
| reach_init : reachable (mkServer ∅ [])
| reach_step s s' : reachable s -> step s s' -> reachable s'.

(** The order in which a status may follow another. *)
Definition forward (a b : status) : bool :=
  match a, b with
  | pending, _ => true
  | processing, pending => false
  | processing, _ => true
  | completed, completed => true
  | failed, failed => true
  | _, _ => false
  end.

End Async.

(** ** Inputs and observations that the statements speak of *)

Module Shapes.

(** A JSON text written with apostrophes in the place of double quotes. *)
Definition json_text (s : string) : jsstring :=
  map (fun c => if c =? 39 then dquote else c) (lit s).





(** The calls to the provider and the pauses, in the order of a trace. *)
Definition provider_events_sync (evs : list Combined.event)
  : list Combined.event :=
  List.filter (fun ev => match ev with
                         | Combined.Generate _ _ | Combined.Sleep _ => true
                         | _ => false
                         end) evs.

Definition provider_events_async (evs : list Async.event)
  : list Async.event :=
  List.filter (fun ev => match ev with
                         | Async.Generate _ _ | Async.Sleep _ => true
                         | _ => false
                         end) evs.

(** The text that the handlers obtain from the PDF. *)
Definition extracted_text (r : result (option jsstring)) : jsstring :=
  match r with
  | inr parsed => preprocess (Combined.text_or_empty parsed)
  | inl _ => []
  end.

Definition file_name (f : option jsstring) : jsstring :=
  match f with Some name => name | None => [] end.

(** The two calls to the provider, as the handlers make them. *)
Definition calls_sync (name text : jsstring) : list Combined.event :=
  [ Combined.Generate (submittalPrompt name text) (mkConfig 1 1024);
    Combined.Sleep 15000;
    Combined.Generate (buildPrompt name text) (mkConfig 1 2048) ].

Definition calls_async (name text : jsstring) : list Async.event :=
  [ Async.Generate (submittalPrompt name text) (mkConfig 1 1024);
    Async.Sleep 15000;
    Async.Generate (buildPrompt name text) (mkConfig 1 2048) ].





(** A task of the asynchronous analyser writes only to its own document,
    and each status it sets may follow the one before. *)
Fixpoint task_chain (i : Async.id) (st : Async.status)
         (evs : list Async.event) : Prop :=
  match evs with
  | [] => True
  | Async.Update j p :: r =>
      j = i /\
      match Async.set_status p with
      | Some st' => Async.forward st st' = true /\ task_chain i st' r
      | None => task_chain i st r
      end
  | Async.Save _ _ :: _ => False
  | _ :: r => task_chain i st r
  end.

(** What holds of the server of the asynchronous analyser at all times. *)
Definition server_inv (s : Async.server) : Prop :=
  NoDup (map fst (Async.tasks s)) /\
  forall i evs, (i, evs) ∈ Async.tasks s ->
    exists doc, Async.db s !! i = Some doc /\
                task_chain i (Async.status_of doc) evs.

End Shapes.
Import Shapes.

(** ** Further observations on texts *)

Module Texts.

(** Is the white space of [s] made of single spaces only?  [after_space]
    tells that a space stands just before [s], in which case [s] may not
    start with one. *)
Fixpoint single_spaced (after_space : bool) (s : jsstring) : bool :=
  match s with
  | [] => true
  | c :: r =>
      if c =? space then negb after_space && single_spaced true r
      else negb (is_ws c) && single_spaced false r
  end.

(** Does [s] hold a character that is not white space? *)
Definition inky (s : jsstring) : bool :=
  existsb (fun c => negb (is_ws c)) s.

(** How many spaces [s] has. *)
Definition spaces (s : jsstring) : nat :=
  length (List.filter (fun c => c =? space) s).

(** A state of the lexer in which the rest of a literal name holds no white
    space; the lexer is only ever in such states. *)
Definition lstate_ok (st : lstate) : bool :=
  match st with
  | LLit rest _ => forallb (fun c => negb (is_ws c)) rest
  | _ => true
  end.

End Texts.
Import Texts.

(** ** Further observations on the handlers *)

Module Observe.

Definition is_response_sync (ev : Combined.event) : bool :=
  match ev with Combined.Respond _ _ => true | _ => false end.

Definition is_response_async (ev : Async.event) : bool :=
  match ev with Async.Respond _ _ => true | _ => false end.




(** A submittal as the asynchronous analyser stores it: an object with the
    properties [item], [page] and [reason], in this order, and no other. *)
Definition stored_submittal (y : json) : Prop :=
  exists item page reason,
    y = JObj [ (lit "item", item); (lit "page", page);
               (lit "reason", reason) ].

(** The fields as the analysers store them: an object that has every fixed
    key, or an array. *)
Definition stored_fields (f : json) : Prop :=
  (exists o, f = JObj o /\ forall k, k ∈ FIELD_LIST -> obj_has o k = true) \/
  (exists l, f = JArr l).

End Observe.
Import Observe.


(** ** The text cleaner of the summarizer *)

From Stdlib Require Import DecimalString.

Module Cleaner.

(** [\r] and [\n]. *)
Definition is_crlf (c : N) : bool := (c =? 13) || (c =? 10).

(** [s.replace(/[\r\n]+/g, ' ')]: every maximal run of line breaks becomes
    one space.  [in_run] tells that the previous character was a line
    break. *)
Fixpoint collapse_crlf (in_run : bool) (s : jsstring) : jsstring :=
  match s with
  | [] => []
  | c :: r =>
      if is_crlf c
      then if in_run then collapse_crlf true r
           else space :: collapse_crlf true r
      else c :: collapse_crlf false r
  end.

(** Where a scan for [\s{2,}] stands: outside white space, after one white
    space character that is not yet known to start a match, or inside a
    match. *)
Inductive run : Type :=
| Outside
| One (c : N)
| Inside.

(** [s.replace(/\s{2,}/g, ' ')]: every maximal run of two white space
    characters or more becomes one space; a white space character that
    stands alone is kept as it is. *)
Fixpoint squeeze (st : run) (s : jsstring) : jsstring :=
  match s with
  | [] =>
      match st with
      | One d => [d]
      | _ => []
      end
  | c :: r =>
      if is_ws c then
        match st with
        | Outside => squeeze (One c) r
        | One _ => space :: squeeze Inside r
        | Inside => squeeze Inside r
        end
      else
        match st with
        | One d => d :: c :: squeeze Outside r
        | _ => c :: squeeze Outside r
        end
  end.

(** [preprocessText(text)] of [gem.js]. *)
Definition preprocessText (text : jsstring) : jsstring :=
  trim (replace_nbsp
          (squeeze Outside (collapse_crlf false (collapse_ws false text)))).

End Cleaner.
Import Cleaner.

(** ** The summarizer ([gem.js]) *)

Module Summarizer.

(** What the calls of this program throw are [Error] objects of the
    libraries and of the program itself; the handlers only ever read their
    [message], so an error is kept as its message. *)
Definition T (E A : Type) : Type := list E * (jsstring + A).

Definition retT {E A} (a : A) : T E A := ([], inr a).
Definition throwT {E A} (m : jsstring) : T E A := ([], inl m).
Definition emitT {E} (ev : E) : T E unit := ([ev], inr tt).
Definition callT {E A} (ev : E) (outcome : jsstring + A) : T E A :=
  ([ev], outcome).

Definition bindT {E A B} (m : T E A) (f : A -> T E B) : T E B :=
  match m with
  | (l, inl e) => (l, inl e)
  | (l, inr a) => let '(l', r) := f a in (l ++ l', r)
  end.

(** [try { m } catch (error) { h error.message }]. *)
Definition catchT {E A} (m : T E A) (h : jsstring -> T E A) : T E A :=
  match m with
  | (l, inl e) => let '(l', r) := h e in (l ++ l', r)
  | (l, inr a) => (l, inr a)
  end.

(** An element of [chunkSummaries]. *)
Record section : Type := mkSection {
  chunkIndex : nat;
  sectionSummary : jsstring }.

(** The prompts, kept as the names of their templates applied to what the
    templates interpolate. *)
Inductive prompt : Type :=
| singlePrompt (fileName text : jsstring)
| chunkPrompt (index total : nat) (chunk : jsstring)
| consolidationPrompt (sections : list section).

(** What [processSingleChunk] and [processMultipleChunks] return. *)
Record analysis : Type := mkAnalysis {
  summary : jsstring;
  model : jsstring;
  processingMethod : jsstring;
  chunks : nat }.

Inductive body : Type :=
| Failure (code : jsstring) (details : option jsstring)
| Summary (text : jsstring) (originalFileName : jsstring)
          (fileSize : N) (wordCount chunksProcessed : nat)
          (method modelName : jsstring).

Inductive event : Type :=
| ReadFile
| PdfParse
| Generate (p : prompt)
| Sleep (ms : Z)
| Unlink
| Respond (status : Z) (b : body).

(** The request and what the outside world answers at each call. *)
Record env : Type := mkEnv {
  file : option (jsstring * N);   (* [req.file]: [originalname] and [size] *)
  geminiModel : bool;             (* is [geminiModel] set? *)
  file_read : jsstring + unit;    (* [fs.readFile(filePath)] *)
  pdf_text : jsstring + option jsstring;  (* [(await pdf(buffer)).text] *)
  single_reply : jsstring + jsstring;     (* the call of [processSingleChunk] *)
  section_reply : nat -> jsstring + jsstring;
                                  (* the call for [textChunks[i]] *)
  consolidation_reply : jsstring + jsstring;
  development : bool }.           (* [NODE_ENV === 'development'] *)

(** A number inside a template literal: its decimal digits. *)
Definition decimal (n : nat) : jsstring :=
  lit (NilEmpty.string_of_uint (Nat.to_uint n)).

(** The summary that stands for a section whose call failed. *)
Definition error_summary (index : nat) (message : jsstring) : jsstring :=
  lit "Error processing section " ++ decimal index ++ lit ": " ++ message.

(** [processSingleChunk(text, fileName)]. *)
Definition processSingleChunk (w : env) (text fileName : jsstring)
  : T event analysis :=
  catchT
    (bindT (callT (Generate (singlePrompt fileName text)) (single_reply w))
       (fun responseText =>
          retT (mkAnalysis responseText (lit "gemini-pro")
                           (lit "single_chunk") 1)))
    (fun error => throwT error).

(** The loop of [processMultipleChunks] from the index [i] on, over the
    chunks that are left: the events, and what is pushed on
    [chunkSummaries].  A call that fails is caught inside the loop. *)
Fixpoint sections_loop (w : env) (total i : nat) (rest : list jsstring)
  : list event * list section :=
  match rest with
  | [] => ([], [])
  | chunk :: rest' =>
      let '(evs, out) := sections_loop w total (S i) rest' in
      let ask := Generate (chunkPrompt (i + 1) total chunk) in
      match section_reply w i with
      | inr chunkSummary =>
          (ask :: (if (i <? total - 1)%nat then [Sleep 1000] else []) ++ evs,
           mkSection (i + 1) chunkSummary :: out)
      | inl message =>
          (ask :: evs,
           mkSection (i + 1) (error_summary (i + 1) message) :: out)
      end
  end.

(** [processMultipleChunks(textChunks, fileName)]. *)
Definition processMultipleChunks (w : env) (textChunks : list jsstring)
           (fileName : jsstring) : T event analysis :=
  let '(evs, chunkSummaries) :=
    sections_loop w (length textChunks) 0 textChunks in
  bindT (evs, inr tt) (fun _ =>
  catchT
    (bindT (callT (Generate (consolidationPrompt chunkSummaries))
                  (consolidation_reply w))
       (fun finalSummary =>
          retT (mkAnalysis finalSummary (lit "gemini-pro")
                           (lit "multi_chunk") (length textChunks))))
    (fun error => throwT error)).

(** [generateContractSummary(textChunks, fileName)]. *)
Definition generateContractSummary (w : env) (textChunks : list jsstring)
           (fileName : jsstring) : T event analysis :=
  catchT
    (if negb (geminiModel w) then throwT (lit "Gemini model not initialized")
     else
       match textChunks with
       | [text] => processSingleChunk w text fileName
       | _ => processMultipleChunks w textChunks fileName
       end)
    (fun message => throwT (lit "Contract analysis failed: " ++ message)).

(** The answer of the [catch] of the handler to an error of message
    [message]. *)
Definition failure_response (w : env) (message : jsstring) : event :=
  if occurs (lit "QUOTA_EXCEEDED") message || occurs (lit "quota") message
  then Respond 429 (Failure (lit "QUOTA_EXCEEDED") None)
  else if occurs (lit "API_KEY_INVALID") message
  then Respond 401 (Failure (lit "INVALID_API_KEY") None)
  else if occurs (lit "SAFETY") message
  then Respond 400 (Failure (lit "CONTENT_SAFETY") None)
  else Respond 500 (Failure (lit "ANALYSIS_FAILED")
                            (if development w then Some message else None)).

(** [app.post("/api/summarize", ...)].  Nothing throws before [filePath]
    is set, so the [catch] always finds it set and unlinks the file. *)
Definition post_summarize (w : env) : T event unit :=
  match file w with
  | None => emitT (Respond 400 (Failure (lit "NO_FILE") None))
  | Some (originalname, size) =>
      if negb (geminiModel w)
      then emitT (Respond 500 (Failure (lit "AI_NOT_READY") None))
      else
        catchT
          (bindT (callT ReadFile (file_read w)) (fun _ =>
           bindT (callT PdfParse (pdf_text w)) (fun pdfData_text =>
           let empty_pdf :=
             bindT (emitT Unlink) (fun _ =>
             emitT (Respond 400 (Failure (lit "EMPTY_PDF") None))) in
           match pdfData_text with
           | None => empty_pdf
           | Some text =>
               (* [!text || text.trim().length === 0] *)
               if negb (nonempty text) || negb (nonempty (trim text))
               then empty_pdf
               else
                 let cleanedText := preprocessText text in
                 let textChunks :=
                   smartChunkText cleanedText default_max default_ov in
                 bindT (generateContractSummary w textChunks originalname)
                   (fun summaryResult =>
                 bindT (emitT Unlink) (fun _ =>
                 emitT (Respond 200
                          (Summary (summary summaryResult) originalname size
                                   (length (split_space cleanedText))
                                   (chunks summaryResult)
                                   (processingMethod summaryResult)
                                   (model summaryResult)))))
           end)))
          (fun message =>
             bindT (emitT Unlink) (fun _ => emitT (failure_response w message)))
  end.

(** The prompts that a run sent to the provider, in order. *)
Fixpoint prompts_of (evs : list event) : list prompt :=
  match evs with
  | [] => []
  | Generate p :: r => p :: prompts_of r
  | _ :: r => prompts_of r
  end.

Definition is_sleep (ev : event) : bool :=
  match ev with Sleep _ => true | _ => false end.

Definition is_respond (ev : event) : bool :=
  match ev with Respond _ _ => true | _ => false end.

Definition is_unlink (ev : event) : bool :=
  match ev with Unlink => true | _ => false end.

(** An event that neither removes the uploaded file nor answers the
    request. *)
Definition quiet (ev : event) : Prop :=
  is_unlink ev = false /\ is_respond ev = false.

(** Did the call return? *)
Definition returned {A} (r : jsstring + A) : bool :=
  match r with inr _ => true | inl _ => false end.

End Summarizer.

(** ** Submittals on demand (the variant with history) *)

Module History.

(** A stored document as the handler reads it: [submittals] is an array
    path of the schema, so a document read from the store holds an
    array. *)
Record contract : Type := mkContract {
  pdfName : jsstring;
  fields : json;
  submittals : list json }.

Inductive body : Type :=
| ErrorBody (error : message)
| Submittals (l : list json).

Inductive event : Type :=
| FindById (i : Combined.id)
| PdfParse
| Generate (p : Effects.prompt) (temperature_tenths : Z)
| Save (i : Combined.id) (doc : contract)
| Respond (code : Z) (b : body).

(** The request and what the outside world answers at each call.  What the
    array path holds after an assignment is the store's affair: [cast]
    stands for it. *)
Record env : Type := mkEnv {
  found : result (option contract);   (* [Contract.findById(id)] *)
  file : option jsstring;             (* [req.file.originalname] *)
  pdf_text : result (option jsstring);
  submittals_reply : result reply;
  cast : json -> list json;           (* [contract.submittals = v] *)
  saved : result unit }.

(** [contract.submittals && contract.submittals.length > 0]. *)
Definition has_entries (l : list json) : bool :=
  match l with [] => false | _ => true end.

(** [app.post('/api/submittals/:id', ...)]. *)
Definition post_submittals (w : env) (i : Combined.id) : M event unit :=
  try_catch
    (contract <- call (FindById i) (found w) ;;
     match contract with
     | None => emit (Respond 404 (ErrorBody (Text (lit "Not found"))))
     | Some contract =>
         if has_entries (submittals contract)
         then emit (Respond 200 (Submittals (submittals contract)))
         else
           match file w with
           | None =>
               emit (Respond 400 (ErrorBody (Text (lit "No PDF uploaded"))))
           | Some _ =>
               parsed <- call PdfParse (pdf_text w) ;;
               let text := preprocess (Combined.text_or_empty parsed) in
               match text with
               | [] =>
                   emit (Respond 400 (ErrorBody (Text (lit "No text in PDF"))))
               | _ =>
                   gRes <- call (Generate
                                   (submittalPrompt (pdfName contract) text) 1)
                                (submittals_reply w) ;;
                   replyText <- lift gRes ;;
                   data <- lift (extractJson_plain replyText) ;;
                   v <- lift (submittals_or_empty data) ;;
                   let contract' :=
                     mkContract (pdfName contract) (fields contract)
                                (cast w v) in
                   call (Save i contract') (saved w) ;;;
                   emit (Respond 200 (Submittals (cast w v)))
               end
           end
     end)
    (fun e => emit (Respond 500 (ErrorBody (message_of e)))).

Definition is_generate (ev : event) : bool :=
  match ev with Generate _ _ => true | _ => false end.

Definition is_save (ev : event) : bool :=
  match ev with Save _ _ => true | _ => false end.

End History.

(** ** Running a handler by cases *)

(** Splits on every answer of the outside world and on every result a
    handler inspects, until its trace is an explicit list. *)
Ltac crack :=
  unfold Async.store_op, trace, outcome;
  repeat (cbn [bind try_catch call emit lift throw ret fst snd app];
          match goal with
          | |- context [match ?x with inl _ => _ | inr _ => _ end] =>
              destruct x eqn:?
          | |- context [match ?x with [] => _ | _ :: _ => _ end] =>
              destruct x eqn:?
          | |- context [match ?x with Some _ => _ | None => _ end] =>
              destruct x eqn:?
          | |- context [match ?x with tt => _ end] => destruct x
          end).

(** Turns the boolean tests on a character into arithmetic. *)
Ltac char_facts :=
  repeat match goal with
         | H : (_ && _) = true |- _ => apply andb_true_iff in H as [? ?]
         | H : (_ || _) = true |- _ => apply orb_true_iff in H as [H|H]
         | H : (_ && _) = false |- _ => apply andb_false_iff in H as [H|H]
         | H : (_ || _) = false |- _ => apply orb_false_iff in H as [? ?]
         | H : (_ =? _) = true |- _ => apply N.eqb_eq in H
         | H : (_ =? _) = false |- _ => apply N.eqb_neq in H
         | H : (_ <=? _) = true |- _ => apply N.leb_le in H
         | H : (_ <=? _) = false |- _ => apply N.leb_gt in H
         | H : (_ <? _) = true |- _ => apply N.ltb_lt in H
         | H : (_ <? _) = false |- _ => apply N.ltb_ge in H
         end.


(** Splits a statement about every event of an explicit trace into one
    goal for each event. *)
Ltac each_event :=
  unfold Async.store_op, trace;
  cbn [bind try_catch call emit lift throw ret fst snd app];
  repeat match goal with
         | |- Forall _ (_ :: _) => constructor
         | |- Forall _ [] => constructor
         end.

(** Finds which event of an explicit trace a membership speaks of. *)
Ltac which_event H :=
  repeat (rewrite elem_of_cons in H; destruct H as [H|H];
          [try discriminate H|]);
  try (rewrite elem_of_nil in H; destruct H).
(** * Properties *)

(** ** The chunkers on a short text *)

(** C4: a text no longer than the maximum chunk size comes back as the only
    chunk, unchanged, from [smartChunks] and from [smartChunkText]. *)
Theorem chunk_short_text (txt : jsstring) (max ov : Z) :
  (len txt <= max)%Z ->
  smartChunks txt max ov = [txt] /\ smartChunkText txt max ov = [txt].
Proof.
  intros Hle. unfold smartChunks, smartChunkText.
  apply Z.leb_le in Hle. rewrite Hle. split; reflexivity.
Qed.

Lemma chunk_short_text_witness :
  smartChunks (lit "Bids close on Friday. Late bids are rejected.")
              default_max default_ov
  = [lit "Bids close on Friday. Late bids are rejected."] /\
  smartChunkText (lit "Bids close on Friday. Late bids are rejected.")
                 default_max default_ov
  = [lit "Bids close on Friday. Late bids are rejected."].
Proof.
  apply (chunk_short_text
           (lit "Bids close on Friday. Late bids are rejected.")
           default_max default_ov).
  vm_compute. discriminate.
Defined.

(** ** The status endpoint *)

(** C10: for a stored document the status endpoint answers 200 with
    [hasSubmittals] true exactly when the array of submittals is there and
    is not empty; in particular a completed document with no submittals
    reports false; and [hasFields] is true as soon as the fields are an
    object. *)
Theorem status_poll_flags (store : gmap Async.id Async.contract)
        (i : Async.id) (doc : Async.contract) :
  store !! i = Some doc ->
  exists hf hs,
    Async.get_status store i =
      (200%Z, Async.StatusBody i (Async.pdfName doc) (Async.status_of doc)
                (Async.message_or_null (Async.errorMessage doc)) hf hs) /\
    (hs = Some true <->
       exists l, Async.submittals doc = Some l /\ l <> []) /\
    (Async.status_of doc = Async.completed ->
       Async.submittals doc = Some [] -> hs = Some false) /\
    (forall o, Async.fields doc = Some (JObj o) -> hf = true).
Proof.
  intros Hdoc.
  exists (Async.hasFields doc), (Async.hasSubmittals doc).
  unfold Async.get_status. rewrite Hdoc. split; [reflexivity|].
  unfold Async.hasSubmittals, Async.hasFields.
  split; [|split].
  - destruct (Async.submittals doc) as [l|].
    + split.
      * intros H. exists l. split; [reflexivity|].
        destruct l; [discriminate|discriminate].
      * intros (l' & Hl' & Hne). injection Hl' as <-.
        destruct l; [congruence|reflexivity].
    + split; [discriminate|]. intros (l & Hl & _). discriminate.
  - intros _ ->. reflexivity.
  - intros o ->. reflexivity.
Qed.

Lemma status_poll_flags_witness :
  exists hf hs,
    Async.get_status
      {[ 7%nat := Async.mkContract (lit "tender.pdf") (Some (JObj [])) (Some [])
                    Async.completed None ]} 7%nat =
      (200%Z, Async.StatusBody 7%nat (lit "tender.pdf") Async.completed None hf hs) /\
    hf = true /\ hs = Some false.
Proof.
  destruct (status_poll_flags
              {[ 7%nat := Async.mkContract (lit "tender.pdf") (Some (JObj []))
                            (Some []) Async.completed None ]}
              7%nat
              (Async.mkContract (lit "tender.pdf") (Some (JObj [])) (Some [])
                 Async.completed None))
    as (hf & hs & Heq & _ & Hempty & Hfields).
  - apply lookup_singleton_eq.
  - exists hf, hs. split; [exact Heq|]. split.
    + apply (Hfields []). reflexivity.
    + apply Hempty; reflexivity.
Defined.

(** ** Back-filling the fixed fields *)

Lemma key_eqb_true (a b : jsstring) : key_eqb a b = true <-> a = b.
Proof. unfold key_eqb. apply bool_decide_eq_true. Qed.

Lemma key_eqb_false (a b : jsstring) : key_eqb a b = false <-> a <> b.
Proof. unfold key_eqb. apply bool_decide_eq_false. Qed.

Lemma obj_get_set_eq (o : list (jsstring * json)) k v :
  obj_get (obj_set o k v) k = Some v.
Proof.
  induction o as [|[k' v'] o IH]; simpl.
  - replace (key_eqb k k) with true; [reflexivity|].
    symmetry. now apply key_eqb_true.
  - destruct (key_eqb k' k) eqn:E; simpl; rewrite E; [reflexivity|exact IH].
Qed.

Lemma obj_get_set_ne (o : list (jsstring * json)) k k' v :
  k <> k' -> obj_get (obj_set o k v) k' = obj_get o k'.
Proof.
  intros Hne. induction o as [|[k0 v0] o IH]; simpl.
  - apply key_eqb_false in Hne. now rewrite Hne.
  - destruct (key_eqb k0 k) eqn:E; simpl.
    + apply key_eqb_true in E. subst k0.
      apply key_eqb_false in Hne. now rewrite Hne.
    + now rewrite IH.
Qed.

Lemma obj_get_backfill_key (o : list (jsstring * json)) k k' :
  obj_get (backfill_key o k) k' =
  match obj_get o k' with
  | Some v => Some v
  | None => if key_eqb k k' then Some JNull else None
  end.
Proof.
  unfold backfill_key, obj_has.
  destruct (key_eqb k k') eqn:E.
  - apply key_eqb_true in E. subst k'.
    destruct (obj_get o k) eqn:G; [now rewrite G|].
    now rewrite obj_get_set_eq.
  - apply key_eqb_false in E.
    destruct (obj_get o k) eqn:G.
    + now destruct (obj_get o k').
    + rewrite obj_get_set_ne by exact E. now destruct (obj_get o k').
Qed.

Lemma obj_get_backfill_fold (ks : list jsstring) (o : list (jsstring * json)) k' :
  obj_get (fold_left backfill_key ks o) k' =
  match obj_get o k' with
  | Some v => Some v
  | None => if bool_decide (k' ∈ ks) then Some JNull else None
  end.
Proof.
  revert o. induction ks as [|k ks IH]; intros o; simpl.
  - destruct (obj_get o k'); [reflexivity|].
    destruct (bool_decide (k' ∈ [])) eqn:B; [|reflexivity].
    apply bool_decide_eq_true in B. now apply not_elem_of_nil in B.
  - rewrite IH, obj_get_backfill_key.
    destruct (obj_get o k') as [v|]; [reflexivity|].
    destruct (key_eqb k k') eqn:E.
    + apply key_eqb_true in E. subst k'.
      rewrite bool_decide_eq_true_2 by apply list_elem_of_here. reflexivity.
    + apply key_eqb_false in E.
      destruct (bool_decide (k' ∈ ks)) eqn:B.
      * apply bool_decide_eq_true in B.
        rewrite bool_decide_eq_true_2; [reflexivity|].
        now apply list_elem_of_further.
      * apply bool_decide_eq_false in B.
        rewrite bool_decide_eq_false_2; [reflexivity|].
        intros Hin. apply elem_of_cons in Hin as [->|Hin]; tauto.
Qed.

(** C5, as the code has it: the fixed list has twenty keys, all different;
    after the back-fill an object holds every one of them, a key that was
    missing is null, and a key that was there, fixed or not, keeps its
    value; nothing else is added. *)
Theorem backfill_complete (o : list (jsstring * json)) :
  length FIELD_LIST = 20%nat /\ NoDup FIELD_LIST /\
  backfill (JObj o) = inr (JObj (backfill_members o)) /\
  (forall k, k ∈ FIELD_LIST -> obj_has (backfill_members o) k = true) /\
  (forall k, k ∈ FIELD_LIST -> obj_get o k = None ->
             obj_get (backfill_members o) k = Some JNull) /\
  (forall k v, obj_get o k = Some v ->
               obj_get (backfill_members o) k = Some v) /\
  (forall k, k ∉ FIELD_LIST ->
             obj_get (backfill_members o) k = obj_get o k).
Proof.
  split; [reflexivity|].
  split; [apply (bool_decide_unpack _); vm_compute; exact I|].
  split; [reflexivity|].
  unfold backfill_members, obj_has.
  repeat split.
  - intros k Hk. rewrite obj_get_backfill_fold.
    destruct (obj_get o k); [reflexivity|].
    now rewrite bool_decide_eq_true_2.
  - intros k Hk Hnone. rewrite obj_get_backfill_fold, Hnone.
    now rewrite bool_decide_eq_true_2.
  - intros k v Hsome. now rewrite obj_get_backfill_fold, Hsome.
  - intros k Hk. rewrite obj_get_backfill_fold.
    destruct (obj_get o k); [reflexivity|].
    now rewrite bool_decide_eq_false_2.
Qed.

Lemma backfill_complete_witness :
  obj_get (backfill_members [(lit "ClientName", JStr (lit "Acme"))])
          (lit "ClientName") = Some (JStr (lit "Acme")) /\
  obj_get (backfill_members [(lit "ClientName", JStr (lit "Acme"))])
          (lit "EMD") = Some JNull.
Proof.
  destruct (backfill_complete [(lit "ClientName", JStr (lit "Acme"))])
    as (_ & _ & _ & _ & Hnull & Hkeep & _).
  split.
  - apply Hkeep. vm_compute. reflexivity.
  - apply Hnull.
    + apply (bool_decide_unpack _). vm_compute. exact I.
    + vm_compute. reflexivity.
Defined.

(** C5 as the specification words it speaks of nineteen fixed keys: the
    back-fill of the empty object has twenty properties. *)
Lemma backfill_nineteen_counterexample :
  length (backfill_members []) = 20%nat /\
  ~ (length FIELD_LIST = 19%nat).
Proof. split; [vm_compute; reflexivity|vm_compute; discriminate]. Qed.

(** ** The submittals that are stored *)








(** ** The order of the calls to the provider *)

(** C2, as the code has it: in the combined synchronous handler and in the
    background task alike, the provider is asked for the submittals first,
    then the handler pauses for 15000 milliseconds, and only then is the
    provider asked for the fixed fields; whatever fails, the calls made are
    an initial part of that sequence. *)
Theorem provider_call_order :
  (forall w,
     provider_events_sync (trace (Combined.post_summarize w))
       `prefix_of` calls_sync (file_name (Combined.file w))
                              (extracted_text (Combined.pdf_text w))) /\
  (forall w name r1 r2,
     Combined.file w = Some name ->
     extracted_text (Combined.pdf_text w) <> [] ->
     Combined.submittals_reply w = inr r1 ->
     Combined.fields_reply w = inr r2 ->
     provider_events_sync (trace (Combined.post_summarize w))
       = calls_sync name (extracted_text (Combined.pdf_text w))) /\
  (forall w i name,
     provider_events_async (trace (Async.processContract w i name))
       `prefix_of` calls_async name (extracted_text (Async.pdf_text w))) /\
  (forall w i name r1 r2,
     Async.update_processing w = inr tt ->
     extracted_text (Async.pdf_text w) <> [] ->
     Async.submittals_reply w = inr r1 ->
     Async.fields_reply w = inr r2 ->
     provider_events_async (trace (Async.processContract w i name))
       = calls_async name (extracted_text (Async.pdf_text w))).
Proof.
  split; [|split; [|split]].
  - intros [f pdf sr fr sv]. unfold Combined.post_summarize, extracted_text.
    cbn [Combined.file Combined.pdf_text Combined.submittals_reply
         Combined.fields_reply Combined.saved_id file_name].
    crack; cbn; try (now apply prefix_nil);
      try (now eexists; reflexivity).
  - intros [f pdf sr fr sv] name r1 r2.
    cbn [Combined.file Combined.pdf_text Combined.submittals_reply
         Combined.fields_reply Combined.saved_id].
    intros -> Htext -> ->. unfold Combined.post_summarize, extracted_text in *.
    cbn [Combined.file Combined.pdf_text Combined.submittals_reply
         Combined.fields_reply Combined.saved_id].
    crack; cbn; try reflexivity; congruence.
  - intros [up pdf ue sr fr uc uf] i name.
    unfold Async.processContract, extracted_text.
    cbn [Async.update_processing Async.pdf_text Async.update_empty
         Async.submittals_reply Async.fields_reply Async.update_completed
         Async.update_failed].
    crack; cbn; try (now apply prefix_nil);
      try (now eexists; reflexivity).
  - intros [up pdf ue sr fr uc uf] i name r1 r2.
    cbn [Async.update_processing Async.pdf_text Async.update_empty
         Async.submittals_reply Async.fields_reply Async.update_completed
         Async.update_failed].
    intros -> Htext -> ->. unfold Async.processContract, extracted_text in *.
    cbn [Async.update_processing Async.pdf_text Async.update_empty
         Async.submittals_reply Async.fields_reply Async.update_completed
         Async.update_failed].
    crack; cbn; try reflexivity; congruence.
Qed.

Lemma provider_call_order_witness :
  provider_events_sync
    (trace (Combined.post_summarize
              (Combined.mkEnv (Some (lit "tender.pdf"))
                 (inr (Some (lit "Bid security is required.")))
                 (inr (inr (json_text "{'submittals':[]}")))
                 (inr (inr (json_text "{'ClientName':'Acme'}")))
                 (inr 1%nat))))
  = calls_sync (lit "tender.pdf") (lit "Bid security is required.") /\
  provider_events_async
    (trace (Async.processContract
              (Async.mkEnv (inr tt)
                 (inr (Some (lit "Bid security is required.")))
                 (inr tt)
                 (inr (inr (json_text "{'submittals':[]}")))
                 (inr (inr (json_text "{'ClientName':'Acme'}")))
                 (inr tt) (inr tt))
              1%nat (lit "tender.pdf")))
  = calls_async (lit "tender.pdf") (lit "Bid security is required.").
Proof.
  destruct provider_call_order as (_ & Hsync & _ & Hasync).
  split.
  - apply (Hsync (Combined.mkEnv (Some (lit "tender.pdf"))
                    (inr (Some (lit "Bid security is required.")))
                    (inr (inr (json_text "{'submittals':[]}")))
                    (inr (inr (json_text "{'ClientName':'Acme'}")))
                    (inr 1%nat))
                 (lit "tender.pdf")
                 (inr (json_text "{'submittals':[]}"))
                 (inr (json_text "{'ClientName':'Acme'}"))).
    + reflexivity.
    + vm_compute. discriminate.
    + reflexivity.
    + reflexivity.
  - apply (Hasync (Async.mkEnv (inr tt)
                     (inr (Some (lit "Bid security is required.")))
                     (inr tt)
                     (inr (inr (json_text "{'submittals':[]}")))
                     (inr (inr (json_text "{'ClientName':'Acme'}")))
                     (inr tt) (inr tt))
                  1%nat (lit "tender.pdf")
                  (inr (json_text "{'submittals':[]}"))
                  (inr (json_text "{'ClientName':'Acme'}"))).
    + reflexivity.
    + vm_compute. discriminate.
    + reflexivity.
    + reflexivity.
Defined.

(** C2 as the specification words it has the fixed fields asked for first
    and the submittals after the pause: on a run where everything succeeds
    neither handler makes its calls in that order. *)
Lemma fields_call_not_first :
  let sync :=
    trace (Combined.post_summarize
             (Combined.mkEnv (Some (lit "tender.pdf"))
                (inr (Some (lit "Bid security is required.")))
                (inr (inr (json_text "{'submittals':[]}")))
                (inr (inr (json_text "{'ClientName':'Acme'}")))
                (inr 1%nat))) in
  let async :=
    trace (Async.processContract
             (Async.mkEnv (inr tt)
                (inr (Some (lit "Bid security is required.")))
                (inr tt)
                (inr (inr (json_text "{'submittals':[]}")))
                (inr (inr (json_text "{'ClientName':'Acme'}")))
                (inr tt) (inr tt))
             1%nat (lit "tender.pdf")) in
  ~ (exists n t c1 ms n' t' c2,
       provider_events_sync sync =
         [ Combined.Generate (buildPrompt n t) c1; Combined.Sleep ms;
           Combined.Generate (submittalPrompt n' t') c2 ]) /\
  ~ (exists n t c1 ms n' t' c2,
       provider_events_async async =
         [ Async.Generate (buildPrompt n t) c1; Async.Sleep ms;
           Async.Generate (submittalPrompt n' t') c2 ]).
Proof.
  split; intros (n & t & c1 & ms & n' & t' & c2 & H);
    vm_compute in H; discriminate.
Qed.

(** ** A PDF without text *)






(** ** The status of a document only moves forward *)

Lemma forward_refl (a : Async.status) : Async.forward a a = true.
Proof. now destruct a. Qed.

Lemma forward_trans (a b c : Async.status) :
  Async.forward a b = true -> Async.forward b c = true ->
  Async.forward a c = true.
Proof. now destruct a, b, c. Qed.

Lemma forward_terminal (a b : Async.status) :
  Async.forward a b = true ->
  (a = Async.completed -> b = Async.completed) /\
  (a = Async.failed -> b = Async.failed).
Proof. destruct a, b; simpl; intros H; split; intros E; congruence. Qed.

(** Whatever the outside world answers, [processContract] sets the statuses
    of its own document only, in an order that starts from pending. *)
Lemma processContract_chain (w : Async.env) (i : Async.id) (name : jsstring) :
  task_chain i Async.pending (trace (Async.processContract w i name)).
Proof.
  destruct w as [up pdf ue sr fr uc uf].
  unfold Async.processContract.
  cbn [Async.update_processing Async.pdf_text Async.update_empty
       Async.submittals_reply Async.fields_reply Async.update_completed
       Async.update_failed].
  crack; cbn; tauto.
Qed.

Lemma upload_store (u : Async.upload) (name : jsstring) (i : Async.id)
      (store : gmap Async.id Async.contract) :
  Async.file u = Some name -> Async.saved_id u = inr i ->
  Async.store_events (trace (Async.post_summarize u)) store
  = <[i := Async.new_contract name]> store.
Proof.
  destruct u as [f sv w]. cbn [Async.file Async.saved_id]. intros -> ->.
  reflexivity.
Qed.

Lemma server_inv_init : server_inv (Async.mkServer ∅ []).
Proof.
  split; [constructor|]. intros i evs Hin. simpl in Hin.
  now apply elem_of_nil in Hin.
Qed.

Lemma task_owner_stored (s : Async.server) (i : Async.id) :
  server_inv s -> i ∈ map fst (Async.tasks s) -> is_Some (Async.db s !! i).
Proof.
  intros [_ Hinv] Hin. apply list_elem_of_fmap in Hin as ([j evs] & -> & Hin).
  destruct (Hinv _ _ Hin) as (doc & Hdoc & _). simpl. eauto.
Qed.

Lemma server_inv_step (s s' : Async.server) :
  server_inv s -> Async.step s s' -> server_inv s'.
Proof.
  intros Hinv Hstep. destruct Hstep as [s u name i Hf Hsv Hfresh
                                       | s before after i ev rest Htasks | s];
    [| |exact Hinv].
  - (* an upload *)
    rewrite (upload_store u name i _ Hf Hsv).
    pose proof Hinv as [Hnd Hall]. split; cbn [Async.tasks Async.db].
    + rewrite map_app. simpl. apply NoDup_app. split; [exact Hnd|].
      split; [|apply NoDup_singleton].
      intros j Hj Hji. apply list_elem_of_singleton in Hji. subst j.
      destruct (task_owner_stored s i Hinv Hj) as [doc Hdoc]. congruence.
    + intros j evs Hin. apply elem_of_app in Hin as [Hin|Hin].
      * destruct (Hall _ _ Hin) as (doc & Hdoc & Hchain).
        exists doc. split; [|exact Hchain].
        rewrite lookup_insert_ne; [exact Hdoc|]. congruence.
      * apply list_elem_of_singleton in Hin. injection Hin as -> ->.
        exists (Async.new_contract name). rewrite lookup_insert_eq.
        split; [reflexivity|]. apply processContract_chain.
  - (* a task performs its next event *)
    pose proof Hinv as [Hnd Hall]. rewrite Htasks in Hnd, Hall.
    assert (Hnd' : NoDup (map fst (before ++ (i, rest) :: after))).
    { rewrite map_app in *. exact Hnd. }
    destruct (Hall i (ev :: rest)) as (doc & Hdoc & Hchain).
    { apply elem_of_app. right. apply list_elem_of_here. }
    assert (Hother : forall j evs,
               (j, evs) ∈ before ++ (i, rest) :: after ->
               (j, evs) = (i, rest) \/
               (j <> i /\ (j, evs) ∈ before ++ (i, ev :: rest) :: after)).
    { intros j evs Hin.
      rewrite map_app in Hnd. cbn [map fst] in Hnd.
      apply NoDup_app in Hnd as (_ & Hdisj & Hnd2).
      apply NoDup_cons in Hnd2 as [Hni _].
      apply elem_of_app in Hin as [Hin|Hin].
      - right. split.
        + intros ->. apply (Hdisj i).
          * apply list_elem_of_fmap. exists (i, evs). split; [reflexivity|exact Hin].
          * apply list_elem_of_here.
        + apply elem_of_app. now left.
      - apply elem_of_cons in Hin as [Hin|Hin]; [now left|].
        right. split.
        + intros ->. apply Hni. apply list_elem_of_fmap.
          exists (i, evs). split; [reflexivity|exact Hin].
        + apply elem_of_app. right. now apply list_elem_of_further. }
    split; cbn [Async.tasks Async.db]; [exact Hnd'|].
    intros j evs Hin. destruct (Hother j evs Hin) as [Heq|[Hne Hold]].
    + injection Heq as -> ->.
      destruct ev as [| | | k d | k p | |]; cbn [task_chain] in Hchain;
        cbn [Async.store_event]; try (exists doc; split; [exact Hdoc|exact Hchain]).
      * destruct Hchain.
      * destruct Hchain as [-> Hchain]. rewrite Hdoc.
        exists (Async.apply_patch p doc). rewrite lookup_insert_eq.
        split; [reflexivity|].
        unfold Async.apply_patch. cbn [Async.status_of].
        destruct (Async.set_status p); [apply Hchain|exact Hchain].
    + destruct (Hall _ _ Hold) as (doc' & Hdoc' & Hchain').
      exists doc'. split; [|exact Hchain'].
      destruct ev as [| | | k d | k p | |]; cbn [task_chain] in Hchain;
        cbn [Async.store_event]; try exact Hdoc'.
      * destruct Hchain.
      * destruct Hchain as [-> _]. rewrite Hdoc.
        rewrite lookup_insert_ne; [exact Hdoc'|congruence].
Qed.

Lemma server_inv_reachable (s : Async.server) :
  Async.reachable s -> server_inv s.
Proof.
  induction 1 as [|s s' _ IH Hstep]; [apply server_inv_init|].
  now apply (server_inv_step s s').
Qed.

Lemma step_forward (s s' : Async.server) :
  server_inv s -> Async.step s s' ->
  forall i doc, Async.db s !! i = Some doc ->
    exists doc', Async.db s' !! i = Some doc' /\
      Async.forward (Async.status_of doc) (Async.status_of doc') = true.
Proof.
  intros Hinv Hstep j doc Hdoc.
  destruct Hstep as [s u name i Hf Hsv Hfresh
                    | s before after i ev rest Htasks | s].
  - rewrite (upload_store u name i _ Hf Hsv). cbn [Async.db].
    exists doc. rewrite lookup_insert_ne by congruence.
    split; [exact Hdoc|apply forward_refl].
  - cbn [Async.db]. destruct Hinv as [_ Hall].
    destruct (Hall i (ev :: rest)) as (d & Hd & Hchain).
    { rewrite Htasks. apply elem_of_app. right. apply list_elem_of_here. }
    destruct ev as [| | | k d0 | k p | |]; cbn [task_chain] in Hchain;
      cbn [Async.store_event];
      try (exists doc; split; [exact Hdoc|apply forward_refl]).
    + destruct Hchain.
    + destruct Hchain as [-> Hchain]. rewrite Hd.
      destruct (decide (j = i)) as [->|Hne].
      * rewrite lookup_insert_eq. exists (Async.apply_patch p d).
        split; [reflexivity|]. assert (doc = d) as -> by congruence.
        unfold Async.apply_patch. cbn [Async.status_of].
        destruct (Async.set_status p); [apply Hchain|apply forward_refl].
      * rewrite lookup_insert_ne by congruence.
        exists doc. split; [exact Hdoc|apply forward_refl].
  - exists doc. split; [exact Hdoc|apply forward_refl].
Qed.

(** C8: along every run of the asynchronous server, whatever the uploads,
    the answers of the outside world and the interleaving of the background
    tasks, the status of a stored document only moves forward in
    pending, processing, then completed or failed: it never goes back and
    never leaves completed or failed. *)
Theorem status_only_forward (s s' : Async.server) :
  Async.reachable s -> rtc Async.step s s' ->
  forall i doc, Async.db s !! i = Some doc ->
    exists doc', Async.db s' !! i = Some doc' /\
      Async.forward (Async.status_of doc) (Async.status_of doc') = true /\
      (Async.status_of doc = Async.completed ->
       Async.status_of doc' = Async.completed) /\
      (Async.status_of doc = Async.failed ->
       Async.status_of doc' = Async.failed).
Proof.
  intros Hreach Hsteps.
  assert (Hmain : forall i doc, Async.db s !! i = Some doc ->
            exists doc', Async.db s' !! i = Some doc' /\
              Async.forward (Async.status_of doc) (Async.status_of doc') = true).
  { apply server_inv_reachable in Hreach.
    induction Hsteps as [s|s s1 s2 Hstep _ IH]; intros i doc Hdoc.
    - exists doc. split; [exact Hdoc|apply forward_refl].
    - destruct (step_forward s s1 Hreach Hstep i doc Hdoc) as (d1 & Hd1 & Hf1).
      destruct (IH (server_inv_step s s1 Hreach Hstep) i d1 Hd1)
        as (d2 & Hd2 & Hf2).
      exists d2. split; [exact Hd2|]. now apply (forward_trans _ _ _ Hf1). }
  intros i doc Hdoc. destruct (Hmain i doc Hdoc) as (doc' & Hdoc' & Hf).
  exists doc'. split; [exact Hdoc'|]. split; [exact Hf|].
  now apply forward_terminal.
Qed.

Lemma status_only_forward_witness :
  let u := Async.mkUpload (Some (lit "tender.pdf")) (inr 1%nat)
             (Async.mkEnv (inr tt)
                (inr (Some (lit "Bid security is required.")))
                (inr tt)
                (inr (inr (json_text "{'submittals':[]}")))
                (inr (inr (json_text "{'ClientName':'Acme'}")))
                (inr tt) (inr tt)) in
  let script :=
    trace (Async.processContract (Async.background u) 1%nat (lit "tender.pdf")) in
  let s1 := Async.mkServer
              (Async.store_events (trace (Async.post_summarize u)) ∅)
              ([] ++ [(1%nat, script)]) in
  let s2 := Async.mkServer
              (Async.store_event
                 (Async.Update 1%nat (Async.status_patch Async.processing))
                 (Async.db s1))
              ([] ++ (1%nat, tl script) :: []) in
  exists doc', Async.db s2 !! 1%nat = Some doc' /\
    Async.forward Async.pending (Async.status_of doc') = true /\
    (Async.pending = Async.completed ->
     Async.status_of doc' = Async.completed) /\
    (Async.pending = Async.failed -> Async.status_of doc' = Async.failed).
Proof.
  intros u script s1 s2.
  apply (status_only_forward s1 s2) with (i := 1%nat)
                                         (doc := Async.new_contract (lit "tender.pdf")).
  - apply (Async.reach_step (Async.mkServer ∅ []) s1 Async.reach_init).
    apply (Async.step_upload (Async.mkServer ∅ []) u (lit "tender.pdf") 1%nat).
    + reflexivity.
    + reflexivity.
    + apply lookup_empty.
  - apply rtc_once.
    apply (Async.step_task s1 [] [] 1%nat
             (Async.Update 1%nat (Async.status_patch Async.processing))
             (tl script)).
    reflexivity.
  - unfold s1. cbn [Async.db].
    rewrite (upload_store u (lit "tender.pdf") 1%nat ∅ eq_refl eq_refl).
    apply lookup_insert_eq.
Defined.

(** ** String facts behind [extractJson] *)

Lemma delete_all_id (p : jsstring) (n : nat) (s : jsstring) :
  occurs p s = false -> delete_all p n 0 s = s.
Proof.
  induction s as [|c r IH]; [reflexivity|].
  intros Hocc. cbn [occurs] in Hocc.
  apply orb_false_elim in Hocc as [Hsw Hr].
  cbn [delete_all]. rewrite Hsw. f_equal. now apply IH.
Qed.

Lemma replace_all_delete (skip : nat) (s : jsstring) :
  replace_all fence 5 (delete_suffix fence) skip s = delete_all fence 5 skip s.
Proof.
  revert skip. induction s as [|c r IH]; intros skip; [reflexivity|].
  cbn [replace_all delete_all]. destruct skip as [|k]; [|apply IH].
  destruct (starts_with fence (c :: r)); rewrite IH; reflexivity.
Qed.

(** The two ways in which the variants clean a reply agree. *)
Lemma clean_reply_fn_eq (text : jsstring) :
  clean_reply_fn text = clean_reply text.
Proof. unfold clean_reply_fn, clean_reply. now rewrite replace_all_delete. Qed.

Lemma extractJson_plain_eq (text : jsstring) :
  extractJson_plain text = extractJson text.
Proof. unfold extractJson_plain, extractJson. now rewrite clean_reply_fn_eq. Qed.


















(** ** When [extractJson] fails *)




(** ** What [extractJson] returns *)







(** ** The size of the chunks *)

Lemma nonempty_true (s : jsstring) : nonempty s = true <-> s <> [].
Proof. destruct s; simpl; split; congruence. Qed.


Lemma len_pos (s : jsstring) : (0 <? len s)%Z = nonempty s.
Proof. destruct s; reflexivity. Qed.








(** * Further properties *)

(** ** Trimming *)

Lemma trimEnd_nil_iff (s : jsstring) : trimEnd s = [] <-> inky s = false.
Proof.
  unfold inky. induction s as [|c r IH]; simpl; [tauto|].
  destruct (trimEnd r) as [|d r'].
  - destruct (is_ws c); simpl.
    + rewrite <- IH. tauto.
    + split; discriminate.
  - split; [discriminate|]. intros H. apply orb_false_elim in H as [_ H].
    apply IH in H. discriminate.
Qed.

Lemma trimEnd_idem (s : jsstring) : trimEnd (trimEnd s) = trimEnd s.
Proof.
  induction s as [|c r IH]; [reflexivity|]. cbn [trimEnd].
  destruct (trimEnd r) as [|d r'] eqn:Hr.
  - destruct (is_ws c) eqn:Hc; [reflexivity|]. cbn [trimEnd]. now rewrite Hc.
  - cbn [trimEnd] in *. rewrite IH. reflexivity.
Qed.

Lemma trimStart_fixed (c : N) (r : jsstring) :
  is_ws c = false -> trimStart (c :: r) = c :: r.
Proof. intros Hc. cbn [trimStart]. now rewrite Hc. Qed.

Lemma trimStart_head (s : jsstring) :
  match trimStart s with
  | [] => True
  | c :: _ => is_ws c = false
  end.
Proof.
  induction s as [|c r IH]; simpl; [exact I|].
  destruct (is_ws c) eqn:Hc; [exact IH|exact Hc].
Qed.

Lemma trimEnd_head (c : N) (r : jsstring) :
  is_ws c = false -> exists r', trimEnd (c :: r) = c :: r'.
Proof.
  intros Hc. cbn [trimEnd]. destruct (trimEnd r) as [|d r'].
  - rewrite Hc. now exists [].
  - now exists (d :: r').
Qed.

Lemma trim_head (s : jsstring) :
  match trim s with
  | [] => True
  | c :: _ => is_ws c = false
  end.
Proof.
  unfold trim. pose proof (trimStart_head s) as H.
  destruct (trimStart s) as [|c r]; [exact I|].
  destruct (trimEnd_head c r H) as (r' & ->). exact H.
Qed.

(** Trimming twice is trimming once. *)
Lemma trim_idem (s : jsstring) : trim (trim s) = trim s.
Proof.
  pose proof (trim_head s) as H. unfold trim at 1.
  destruct (trim s) as [|c r] eqn:Ht; [reflexivity|].
  rewrite (trimStart_fixed c r H), <- Ht. unfold trim. apply trimEnd_idem.
Qed.

Lemma inky_app (a b : jsstring) : inky (a ++ b) = inky a || inky b.
Proof. unfold inky. apply existsb_app. Qed.

Lemma inky_trimStart (s : jsstring) : inky (trimStart s) = inky s.
Proof.
  unfold inky. induction s as [|c r IH]; [reflexivity|]. cbn [trimStart].
  destruct (is_ws c) eqn:Hc; [|reflexivity]. simpl. now rewrite Hc, IH.
Qed.

(** What is left of a text after trimming is empty exactly when the text is
    white space only. *)
Lemma trim_nil_iff (s : jsstring) : trim s = [] <-> inky s = false.
Proof. unfold trim. now rewrite trimEnd_nil_iff, inky_trimStart. Qed.

Lemma trim_nonempty (s : jsstring) : inky s = true -> trim s <> [].
Proof. intros H E. apply trim_nil_iff in E. congruence. Qed.

(** ** The normalizer *)

Lemma space_is_ws (c : N) : (c =? space) = true -> is_ws c = true.
Proof. intros H. apply N.eqb_eq in H. now subst. Qed.

Lemma collapse_ws_spaced (b : bool) (t : jsstring) :
  single_spaced b (collapse_ws b t) = true.
Proof.
  revert b. induction t as [|c r IH]; intros b; [reflexivity|].
  cbn [collapse_ws]. destruct (is_ws c) eqn:Hc.
  - destruct b; [apply IH|]. cbn [single_spaced]. rewrite N.eqb_refl.
    apply IH.
  - cbn [single_spaced]. destruct (c =? space) eqn:Hs.
    + apply space_is_ws in Hs. congruence.
    + rewrite Hc. apply IH.
Qed.

Lemma single_spaced_weaken (b : bool) (s : jsstring) :
  single_spaced b s = true -> single_spaced false s = true.
Proof.
  destruct s as [|c r]; [reflexivity|]. cbn [single_spaced].
  destruct (c =? space); [|tauto]. destruct b; [discriminate|tauto].
Qed.

Lemma replace_nbsp_spaced (b : bool) (s : jsstring) :
  single_spaced b s = true -> replace_nbsp s = s.
Proof.
  unfold replace_nbsp. revert b. induction s as [|c r IH]; intros b; [reflexivity|].
  cbn [single_spaced map]. destruct (c =? space) eqn:Hs.
  - intros H. apply andb_true_iff in H as [_ H].
    apply N.eqb_eq in Hs. subst c. cbn. f_equal. exact (IH _ H).
  - intros H. apply andb_true_iff in H as [Hc H].
    destruct (c =? 160) eqn:Hn.
    + apply N.eqb_eq in Hn. subst c. discriminate.
    + f_equal. exact (IH _ H).
Qed.

Lemma collapse_ws_fixed (b : bool) (s : jsstring) :
  single_spaced b s = true -> collapse_ws b s = s.
Proof.
  revert b. induction s as [|c r IH]; intros b; [reflexivity|].
  cbn [single_spaced collapse_ws]. destruct (c =? space) eqn:Hs.
  - intros H. apply andb_true_iff in H as [Hb H].
    rewrite (space_is_ws c Hs). destruct b; [discriminate|].
    apply N.eqb_eq in Hs. subst c. f_equal. exact (IH _ H).
  - intros H. apply andb_true_iff in H as [Hc H].
    apply negb_true_iff in Hc. rewrite Hc. f_equal. exact (IH _ H).
Qed.

Lemma trimStart_spaced (b : bool) (s : jsstring) :
  single_spaced b s = true -> single_spaced true (trimStart s) = true.
Proof.
  revert b. induction s as [|c r IH]; intros b; [reflexivity|].
  cbn [single_spaced trimStart]. destruct (c =? space) eqn:Hs.
  - intros H. apply andb_true_iff in H as [_ H].
    rewrite (space_is_ws c Hs). exact (IH _ H).
  - intros H. apply andb_true_iff in H as [Hc H].
    pose proof Hc as Hc'. apply negb_true_iff in Hc'. rewrite Hc'.
    cbn [single_spaced]. now rewrite Hs, Hc, H.
Qed.

Lemma trimEnd_spaced (b : bool) (s : jsstring) :
  single_spaced b s = true -> single_spaced b (trimEnd s) = true.
Proof.
  revert b. induction s as [|c r IH]; intros b; [reflexivity|].
  cbn [single_spaced trimEnd]. intros H.
  assert (Hr : exists b', single_spaced b' r = true /\
                          single_spaced b (c :: trimEnd r) = true).
  { cbn [single_spaced]. destruct (c =? space).
    - apply andb_true_iff in H as [Hb H]. exists true.
      split; [exact H|]. rewrite Hb. exact (IH _ H).
    - apply andb_true_iff in H as [Hc H]. exists false.
      split; [exact H|]. rewrite Hc. exact (IH _ H). }
  destruct Hr as (b' & Hr & Hcons).
  destruct (trimEnd r) as [|d r'] eqn:Ht; [|exact Hcons].
  destruct (is_ws c) eqn:Hc; [reflexivity|].
  cbn [single_spaced] in *. exact Hcons.
Qed.

Lemma preprocess_spaced (t : jsstring) : single_spaced true (preprocess t) = true.
Proof.
  unfold preprocess, trim.
  rewrite (replace_nbsp_spaced false) by apply collapse_ws_spaced.
  apply trimEnd_spaced. apply (trimStart_spaced false), collapse_ws_spaced.
Qed.

Lemma single_spaced_chars (b : bool) (s : jsstring) (c : N) :
  single_spaced b s = true -> c ∈ s -> is_ws c = true -> c = space.
Proof.
  revert b. induction s as [|d r IH]; intros b Hs Hin Hc.
  - now apply elem_of_nil in Hin.
  - cbn [single_spaced] in Hs. apply elem_of_cons in Hin as [->|Hin].
    + destruct (d =? space) eqn:Hd; [now apply N.eqb_eq in Hd|].
      apply andb_true_iff in Hs as [Hn _]. rewrite Hc in Hn. discriminate.
    + destruct (d =? space); apply andb_true_iff in Hs as [_ Hs];
        exact (IH _ Hs Hin Hc).
Qed.

Lemma single_spaced_no_double (b : bool) (s u v : jsstring) :
  single_spaced b s = true -> s <> u ++ space :: space :: v.
Proof.
  revert b s. induction u as [|d u IH]; intros b s Hs ->.
  - cbn in Hs. rewrite !andb_false_r in Hs. discriminate.
  - cbn [app single_spaced] in Hs.
    destruct (d =? space); apply andb_true_iff in Hs as [_ Hs];
      exact (IH _ _ Hs eq_refl).
Qed.

(** X1: the normalizer returns a text whose only white space is single
    spaces between words: any white-space character left is a space, no two
    spaces are adjacent, there is none at either end; and normalizing such
    a text again changes nothing. *)
Theorem preprocess_normal_form (t : jsstring) :
  (forall c, c ∈ preprocess t -> is_ws c = true -> c = space) /\
  (forall u v, preprocess t <> u ++ space :: space :: v) /\
  trim (preprocess t) = preprocess t /\
  preprocess (preprocess t) = preprocess t.
Proof.
  pose proof (preprocess_spaced t) as Hsp.
  assert (Htrim : trim (preprocess t) = preprocess t).
  { unfold preprocess. apply trim_idem. }
  split; [|split; [|split]].
  - intros c. now apply single_spaced_chars with (b := true).
  - intros u v. now apply single_spaced_no_double with (b := true).
  - exact Htrim.
  - unfold preprocess at 1.
    rewrite (collapse_ws_fixed false) by now apply single_spaced_weaken with true.
    rewrite (replace_nbsp_spaced true) by exact Hsp. exact Htrim.
Qed.

Lemma preprocess_normal_form_witness :
  preprocess (lit "  Bid   security ") = lit "Bid security" /\
  (32 ∈ preprocess (lit "  Bid   security ") -> is_ws 32 = true -> 32 = space).
Proof.
  destruct (preprocess_normal_form (lit "  Bid   security "))
    as (Hchars & _ & _ & Hidem).
  split.
  - vm_compute. reflexivity.
  - apply Hchars.
Defined.

(** ** Words and the overlap of the chunkers *)

Lemma split_space_nonempty (s : jsstring) : split_space s <> [].
Proof.
  destruct s as [|c r]; [discriminate|]. cbn [split_space].
  destruct (c =? space); [discriminate|].
  destruct (split_space r); discriminate.
Qed.

(** Joining the words of a text gives the text back. *)
Lemma join_split (s : jsstring) : join_space (split_space s) = s.
Proof.
  induction s as [|c r IH]; [reflexivity|]. cbn [split_space].
  pose proof (split_space_nonempty r) as Hne.
  destruct (c =? space) eqn:Hc.
  - apply N.eqb_eq in Hc. subst c.
    destruct (split_space r) as [|w ws]; [contradiction|].
    cbn [join_space app]. now rewrite <- IH.
  - destruct (split_space r) as [|w ws]; [contradiction|].
    rewrite <- IH. cbn [join_space]. now destruct ws.
Qed.

Lemma join_drop_suffix (k : nat) (ws : list jsstring) :
  join_space (drop k ws) `suffix_of` join_space ws.
Proof.
  revert ws. induction k as [|k IH]; intros ws; [reflexivity|].
  destruct ws as [|w ws]; [reflexivity|]. cbn [drop].
  etrans; [apply IH|]. cbn [join_space]. destruct ws as [|w' ws].
  - apply suffix_nil.
  - exists (w ++ [space]). now rewrite <- app_assoc.
Qed.

Lemma split_space_words (s : jsstring) :
  Forall (fun w => spaces w = 0%nat) (split_space s).
Proof.
  unfold spaces. induction s as [|c r IH]; [repeat constructor|].
  cbn [split_space]. destruct (c =? space) eqn:Hc.
  - constructor; [reflexivity|exact IH].
  - destruct (split_space r) as [|w ws]; [repeat constructor; cbn; now rewrite Hc|].
    inversion IH as [|? ? Hw Hws]; subst. constructor; [|exact Hws].
    cbn [List.filter]. now rewrite Hc.
Qed.

Lemma spaces_app (a b : jsstring) : spaces (a ++ b) = (spaces a + spaces b)%nat.
Proof. unfold spaces. now rewrite List.filter_app, length_app. Qed.

Lemma spaces_join (ws : list jsstring) :
  Forall (fun w => spaces w = 0%nat) ws ->
  spaces (join_space ws) = (length ws - 1)%nat.
Proof.
  induction 1 as [|w ws Hw _ IH]; [reflexivity|].
  cbn [join_space]. destruct ws as [|w' ws]; [cbn; lia|].
  rewrite spaces_app, Hw. change (space :: join_space (w' :: ws))
    with ([space] ++ join_space (w' :: ws)).
  rewrite spaces_app, IH. cbn [length]. unfold spaces at 1. cbn. lia.
Qed.

(** X2: the overlap that opens the next chunk is always an end piece of the
    chunk just closed; with an overlap size from 0 to 5 it is that whole
    chunk (the slice starts at index 0), and with a size of 6 or more it
    holds at most [ov / 6] words, that is fewer than [ov / 6] spaces. *)
Theorem overlap_is_tail (ov : Z) (cur : jsstring) :
  overlap ov cur `suffix_of` cur /\
  ((0 <= ov < 6)%Z -> overlap ov cur = cur) /\
  ((6 <= ov)%Z -> (Z.of_nat (spaces (overlap ov cur)) < ov / 6)%Z).
Proof.
  unfold overlap, slice_from. split; [|split].
  - match goal with
    | |- join_space (drop ?k _) `suffix_of` _ =>
        pose proof (join_drop_suffix k (split_space cur)) as Hsuf
    end.
    now rewrite join_split in Hsuf.
  - intros Hov. replace (ov / 6)%Z with 0%Z by (symmetry; apply Z.div_small; lia).
    cbn. rewrite Z.min_l by lia. cbn. apply join_split.
  - intros Hov.
    assert (Hk : (1 <= ov / 6)%Z) by (apply Z.div_le_lower_bound; lia).
    destruct (- (ov / 6) <? 0)%Z eqn:Hneg; [|apply Z.ltb_ge in Hneg; lia].
    rewrite spaces_join.
    + rewrite length_drop. pose proof (split_space_nonempty cur) as Hne.
      destruct (split_space cur) as [|w ws]; [contradiction|].
      cbn [length]. lia.
    + apply Forall_drop, split_space_words.
Qed.

Lemma overlap_is_tail_witness :
  overlap 3 (lit "bid security is required.") = lit "bid security is required." /\
  (Z.of_nat (spaces (overlap 12 (lit "bid security is required."))) < 12 / 6)%Z.
Proof.
  destruct (overlap_is_tail 3 (lit "bid security is required.")) as (_ & Hall & _).
  destruct (overlap_is_tail 12 (lit "bid security is required.")) as (_ & _ & Hfew).
  split; [apply Hall; lia|apply Hfew; lia].
Defined.

(** ** The shape of a back-filled object *)

Lemma obj_set_absent (o : list (jsstring * json)) k v :
  obj_get o k = None -> obj_set o k v = o ++ [(k, v)].
Proof.
  induction o as [|[k' v'] o IH]; [reflexivity|]. cbn [obj_get obj_set].
  destruct (key_eqb k' k); [discriminate|]. intros H. cbn [app].
  now rewrite IH.
Qed.

Lemma obj_get_app_other (o : list (jsstring * json)) k v k' :
  k <> k' -> obj_get (o ++ [(k, v)]) k' = obj_get o k'.
Proof.
  intros Hne. induction o as [|[k0 v0] o IH]; cbn [app obj_get].
  - apply key_eqb_false in Hne. now rewrite Hne.
  - now rewrite IH.
Qed.

Lemma backfill_fold_shape (ks : list jsstring) (o : list (jsstring * json)) :
  NoDup ks ->
  fold_left backfill_key ks o =
  o ++ map (fun k => (k, JNull))
           (List.filter (fun k => negb (obj_has o k)) ks).
Proof.
  intros Hnd. revert o. induction Hnd as [|k ks Hk Hnd IH]; intros o.
  - cbn. now rewrite app_nil_r.
  - cbn [fold_left List.filter]. rewrite IH. unfold backfill_key at 1 2.
    destruct (obj_has o k) eqn:Hhas; cbn [negb]; [reflexivity|].
    unfold obj_has in Hhas. destruct (obj_get o k) eqn:Hget; [discriminate|].
    rewrite (obj_set_absent _ _ _ Hget), <- app_assoc. cbn [map app].
    do 3 f_equal. apply List.filter_ext_in. intros k' Hin.
    unfold obj_has. rewrite obj_get_app_other; [reflexivity|].
    intros ->. apply Hk. now apply list_elem_of_In.
Qed.

Lemma backfill_fold_fixed (ks : list jsstring) (o : list (jsstring * json)) :
  (forall k, k ∈ ks -> obj_has o k = true) -> fold_left backfill_key ks o = o.
Proof.
  induction ks as [|k ks IH]; intros Hall; [reflexivity|].
  cbn [fold_left]. unfold backfill_key at 2.
  rewrite (Hall k) by apply list_elem_of_here.
  apply IH. intros k' Hk'. apply Hall. now apply list_elem_of_further.
Qed.

Lemma FIELD_LIST_NoDup : NoDup FIELD_LIST.
Proof. apply (bool_decide_unpack _). vm_compute. exact I. Qed.

(** X6: the back-fill leaves the properties of the object as they are, in
    their order, and adds after them the fixed keys that were missing, in
    the order of the list, each with null; so a second pass over the list,
    as the plain analyser makes, changes nothing. *)
Theorem backfill_appends_missing (o : list (jsstring * json)) :
  backfill_members o =
    o ++ map (fun k => (k, JNull))
             (List.filter (fun k => negb (obj_has o k)) FIELD_LIST) /\
  backfill_members (backfill_members o) = backfill_members o.
Proof.
  split.
  - apply backfill_fold_shape, FIELD_LIST_NoDup.
  - unfold backfill_members at 1. apply backfill_fold_fixed.
    intros k Hk. unfold obj_has, backfill_members.
    rewrite obj_get_backfill_fold. destruct (obj_get o k); [reflexivity|].
    now rewrite bool_decide_eq_true_2.
Qed.

(** ** What the sentence pattern matches *)

Lemma rev_nonempty {A} (l : list A) : l <> [] -> rev l <> [].
Proof.
  intros Hl E. apply (f_equal (@length A)) in E. rewrite length_rev in E.
  destruct l; [contradiction|discriminate].
Qed.

Lemma sentence_formed (body terms : jsstring) :
  Forall (fun c => is_term c = false) body ->
  Forall (fun c => is_term c = true) terms ->
  body <> [] -> terms <> [] ->
  exists b t,
    rev body ++ rev terms = b ++ t /\ b <> [] /\ t <> [] /\
    Forall (fun c => is_term c = false) b /\
    Forall (fun c => is_term c = true) t.
Proof.
  intros Hb Ht Hbne Htne. exists (rev body), (rev terms).
  split; [reflexivity|]. split; [now apply rev_nonempty|].
  split; [now apply rev_nonempty|]. split; now apply Forall_rev.
Qed.

Lemma match_sentences_spec (s body terms : jsstring) :
  Forall (fun c => is_term c = false) body ->
  Forall (fun c => is_term c = true) terms ->
  (terms <> [] -> body <> []) ->
  exists lead tail,
    rev body ++ rev terms ++ s
      = lead ++ concat (match_sentences body terms s) ++ tail /\
    Forall (fun c => is_term c = true) lead /\
    Forall (fun c => is_term c = false) tail /\
    (body <> [] -> lead = []) /\
    Forall (fun sent => exists b t,
              sent = b ++ t /\ b <> [] /\ t <> [] /\
              Forall (fun c => is_term c = false) b /\
              Forall (fun c => is_term c = true) t)
           (match_sentences body terms s).
Proof.
  revert body terms. induction s as [|c r IH]; intros body terms Hb Ht Hbt.
  - cbn [match_sentences]. destruct terms as [|t0 terms].
    + exists [], (rev body). cbn. rewrite app_nil_r.
      split; [reflexivity|]. split; [constructor|].
      split; [now apply Forall_rev|]. split; [reflexivity|constructor].
    + exists [], []. cbn [concat app]. rewrite !app_nil_r.
      split; [reflexivity|]. split; [constructor|]. split; [constructor|].
      split; [reflexivity|]. constructor; [|constructor].
      apply sentence_formed; try assumption; [|discriminate].
      apply Hbt. discriminate.
  - cbn [match_sentences]. destruct (is_term c) eqn:Hc.
    + destruct body as [|b0 body].
      * assert (terms = []) as ->.
        { destruct terms; [reflexivity|]. exfalso. now apply Hbt. }
        destruct (IH [] [] Hb Ht Hbt) as (lead & tail & Heq & Hl & Htl & _ & Hs).
        exists (c :: lead), tail. cbn [rev app] in *.
        split; [now f_equal|]. split; [now constructor|].
        split; [exact Htl|]. split; [congruence|exact Hs].
      * destruct (IH (b0 :: body) (c :: terms) Hb)
          as (lead & tail & Heq & Hl & Htl & Hlead & Hs).
        { now constructor. }
        { discriminate. }
        exists lead, tail. split.
        { rewrite <- Heq. cbn [rev]. now rewrite <- !app_assoc. }
        split; [exact Hl|]. split; [exact Htl|]. split; assumption.
    + destruct terms as [|t0 terms].
      * destruct (IH (c :: body) [])
          as (lead & tail & Heq & Hl & Htl & Hlead & Hs).
        { now constructor. }
        { constructor. }
        { discriminate. }
        exists lead, tail. split.
        { rewrite <- Heq. cbn [rev app]. now rewrite <- !app_assoc. }
        split; [exact Hl|]. split; [exact Htl|]. split; [|exact Hs].
        intros _. apply Hlead. discriminate.
      * destruct (IH [c] [])
          as (lead & tail & Heq & Hl & Htl & Hlead & Hs).
        { now repeat constructor. }
        { constructor. }
        { discriminate. }
        rewrite (Hlead ltac:(discriminate)) in Heq. cbn [app rev] in Heq.
        exists [], tail. cbn [concat app]. split.
        { rewrite <- !app_assoc. do 2 f_equal. exact Heq. }
        split; [constructor|]. split; [exact Htl|]. split; [reflexivity|].
        constructor; [|exact Hs].
        apply sentence_formed; try assumption; [|discriminate].
        apply Hbt. discriminate.
Qed.

(** X3: the sentences that the pattern finds are, in order and without
    gaps, the text between the sentence terminators that open it, which are
    skipped, and the characters after its last terminator, which are left
    out; each sentence is a run of characters that are no terminators
    followed by a run of terminators, neither empty. *)
Theorem sentences_cover (txt : jsstring) :
  exists lead tail,
    txt = lead ++ concat (match_sentences [] [] txt) ++ tail /\
    Forall (fun c => is_term c = true) lead /\
    Forall (fun c => is_term c = false) tail /\
    Forall (fun sent => exists b t,
              sent = b ++ t /\ b <> [] /\ t <> [] /\
              Forall (fun c => is_term c = false) b /\
              Forall (fun c => is_term c = true) t)
           (match_sentences [] [] txt).
Proof.
  destruct (match_sentences_spec txt [] [])
    as (lead & tail & Heq & Hl & Ht & _ & Hs).
  - constructor.
  - constructor.
  - congruence.
  - exists lead, tail. split; [exact Heq|]. split; [exact Hl|]. now split.
Qed.

(** ** No blank chunk *)

Lemma term_not_ws (c : N) : is_term c = true -> is_ws c = false.
Proof.
  unfold is_term. intros H.
  apply orb_true_iff in H as [H|H]; [apply orb_true_iff in H as [H|H]|];
    apply N.eqb_eq in H; subst c; reflexivity.
Qed.

Lemma inky_trimEnd (s : jsstring) : inky (trimEnd s) = inky s.
Proof.
  unfold inky. induction s as [|c r IH]; [reflexivity|]. cbn [trimEnd].
  destruct (trimEnd r) as [|d r'] eqn:Hr.
  - cbn [existsb] in IH. cbn [existsb]. rewrite <- IH.
    destruct (is_ws c) eqn:Hc; cbn; rewrite ?Hc; reflexivity.
  - cbn [existsb] in *. now rewrite IH.
Qed.

Lemma inky_trim (s : jsstring) : inky (trim s) = inky s.
Proof. unfold trim. now rewrite inky_trimEnd, inky_trimStart. Qed.

Lemma matched_sentences_inky (txt : jsstring) :
  Forall (fun s => inky s = true) (match_sentences [] [] txt).
Proof.
  destruct (match_sentences_spec txt [] [])
    as (_ & _ & _ & _ & _ & _ & Hs); try constructor; [congruence|].
  eapply Forall_impl; [exact Hs|]. cbn beta.
  intros sent (b & t & -> & _ & Ht & _ & Hterm).
  rewrite inky_app. destruct t as [|c t]; [contradiction|].
  inversion Hterm as [|? ? Hc _]; subst. unfold inky at 2. cbn [existsb].
  rewrite (term_not_ws c Hc). cbn. apply orb_true_r.
Qed.

(** The state of the loop of a chunker: the chunks pushed are trimmed and
    not empty, and the accumulator is empty or holds more than white
    space. *)
Lemma chunk_pushed_ok (cur : jsstring) :
  inky cur = true -> trim cur <> [] /\ trim (trim cur) = trim cur.
Proof. intros H. split; [now apply trim_nonempty|apply trim_idem]. Qed.

Lemma smartChunks_step_inky (max ov : Z) (out : list jsstring)
      (cur sent : jsstring) :
  Forall (fun c => c <> [] /\ trim c = c) out ->
  cur = [] \/ inky cur = true ->
  cur = [] \/ inky sent = true ->
  Forall (fun c => c <> [] /\ trim c = c) (smartChunks_step max ov (out, cur) sent).1 /\
  ((smartChunks_step max ov (out, cur) sent).2 = [] \/
   inky (smartChunks_step max ov (out, cur) sent).2 = true).
Proof.
  intros Hout Hcur Hsent. unfold smartChunks_step.
  destruct ((len cur + len sent >? max)%Z && nonempty cur) eqn:Htest;
    cbn [fst snd].
  - apply andb_true_iff in Htest as [_ Hne]. apply nonempty_true in Hne.
    destruct Hcur as [?|Hcur]; [contradiction|].
    destruct Hsent as [?|Hsent]; [contradiction|].
    split.
    + apply Forall_app. split; [exact Hout|].
      constructor; [now apply chunk_pushed_ok|constructor].
    + right. rewrite inky_app.
      change (space :: sent) with ([space] ++ sent).
      rewrite inky_app, Hsent. now rewrite !orb_true_r.
  - split; [exact Hout|]. destruct Hcur as [->|Hcur].
    + cbn [separator nonempty app].
      destruct (inky (trim sent)) eqn:Hi; [now right|left].
      rewrite inky_trim in Hi. now apply trim_nil_iff.
    + right. now rewrite inky_app, Hcur.
Qed.

Lemma smartChunkText_step_inky (max ov : Z) (out : list jsstring)
      (cur sent : jsstring) :
  Forall (fun c => c <> [] /\ trim c = c) out ->
  cur = [] \/ inky cur = true ->
  cur = [] \/ inky sent = true ->
  Forall (fun c => c <> [] /\ trim c = c)
         (smartChunkText_step max ov (out, cur) sent).1 /\
  ((smartChunkText_step max ov (out, cur) sent).2 = [] \/
   inky (smartChunkText_step max ov (out, cur) sent).2 = true).
Proof.
  intros Hout Hcur Hsent. unfold smartChunkText_step. rewrite len_pos.
  destruct ((len cur + len (trim sent) >? max)%Z && nonempty cur) eqn:Htest;
    cbn [fst snd].
  - apply andb_true_iff in Htest as [_ Hne]. apply nonempty_true in Hne.
    destruct Hcur as [?|Hcur]; [contradiction|].
    destruct Hsent as [?|Hsent]; [contradiction|].
    split.
    + apply Forall_app. split; [exact Hout|].
      constructor; [now apply chunk_pushed_ok|constructor].
    + right. rewrite inky_app.
      change (space :: trim sent) with ([space] ++ trim sent).
      rewrite inky_app, inky_trim, Hsent. now rewrite !orb_true_r.
  - split; [exact Hout|]. destruct Hcur as [->|Hcur].
    + cbn [separator nonempty app].
      destruct (inky (trim sent)) eqn:Hi; [now right|left].
      rewrite inky_trim in Hi. now apply trim_nil_iff.
    + right. now rewrite inky_app, Hcur.
Qed.

Lemma chunks_fold_inky
      (step : list jsstring * jsstring -> jsstring -> list jsstring * jsstring)
      (l : list jsstring) :
  (forall out cur sent,
     Forall (fun c => c <> [] /\ trim c = c) out ->
     cur = [] \/ inky cur = true ->
     cur = [] \/ inky sent = true ->
     Forall (fun c => c <> [] /\ trim c = c) (step (out, cur) sent).1 /\
     ((step (out, cur) sent).2 = [] \/ inky (step (out, cur) sent).2 = true)) ->
  forall st,
    Forall (fun c => c <> [] /\ trim c = c) st.1 ->
    st.2 = [] \/ inky st.2 = true ->
    (Forall (fun s => inky s = true) l \/ (st.2 = [] /\ length l <= 1)%nat) ->
    Forall (fun c => c <> [] /\ trim c = c) (fold_left step l st).1 /\
    ((fold_left step l st).2 = [] \/ inky (fold_left step l st).2 = true).
Proof.
  intros Hstep. induction l as [|sent l IH]; intros [out cur] Hout Hcur Hl;
    [now split|].
  cbn [fold_left fst snd] in *.
  assert (Hsent : cur = [] \/ inky sent = true).
  { destruct Hl as [Hl|[Hl _]]; [|now left].
    right. now inversion Hl. }
  destruct (Hstep out cur sent Hout Hcur Hsent) as [Hout' Hcur'].
  destruct (step (out, cur) sent) as [out' cur'] eqn:Hst.
  apply (IH (out', cur')); [exact Hout'|exact Hcur'|].
  destruct Hl as [Hl|[_ Hl]].
  - left. now inversion Hl.
  - left. cbn [length] in Hl. destruct l; [constructor|cbn in Hl; lia].
Qed.

Lemma sentences_inky_or_single (txt : jsstring) :
  Forall (fun s => inky s = true) (sentences txt) \/
  (length (sentences txt) <= 1)%nat.
Proof.
  unfold sentences. pose proof (matched_sentences_inky txt) as H.
  destruct (match_sentences [] [] txt); [right; cbn; lia|now left].
Qed.

(** X4: of a text longer than the maximum, [smartChunks] returns only
    chunks that are not empty and have no white space at either end, and so
    does [smartChunkText] unless it falls back on the text itself; and
    [smartChunkText] never returns an empty list. *)
Theorem chunks_never_blank (txt : jsstring) (max ov : Z) :
  ((max < len txt)%Z ->
   forall c, c ∈ smartChunks txt max ov -> c <> [] /\ trim c = c) /\
  ((max < len txt)%Z ->
   forall c, c ∈ smartChunkText txt max ov ->
             c = txt \/ (c <> [] /\ trim c = c)) /\
  smartChunkText txt max ov <> [].
Proof.
  assert (Hl : Forall (fun s => inky s = true) (sentences txt) \/
               (([] : jsstring) = [] /\ (length (sentences txt) <= 1)%nat)).
  { destruct (sentences_inky_or_single txt); [now left|now right]. }
  split; [|split].
  - intros Hlong. apply Z.leb_gt in Hlong. unfold smartChunks. rewrite Hlong.
    destruct (chunks_fold_inky (smartChunks_step max ov) (sentences txt)
                (smartChunks_step_inky max ov) ([], []))
      as [Hout Hcur]; [constructor|now left|exact Hl|].
    destruct (fold_left (smartChunks_step max ov) (sentences txt) ([], []))
      as [out cur]. cbn [fst snd] in *. rewrite Forall_forall in Hout.
    intros c Hc. destruct (nonempty (trim cur)) eqn:Hne; [|now apply Hout].
    apply elem_of_app in Hc as [Hc|Hc]; [now apply Hout|].
    apply list_elem_of_singleton in Hc. subst c.
    split; [now apply nonempty_true|apply trim_idem].
  - intros Hlong. apply Z.leb_gt in Hlong. unfold smartChunkText. rewrite Hlong.
    destruct (chunks_fold_inky (smartChunkText_step max ov) (sentences txt)
                (smartChunkText_step_inky max ov) ([], []))
      as [Hout Hcur]; [constructor|now left|exact Hl|].
    destruct (fold_left (smartChunkText_step max ov) (sentences txt) ([], []))
      as [out cur]. cbn [fst snd] in *. rewrite Forall_forall in Hout.
    assert (Hall : forall c,
               c ∈ (if nonempty (trim cur) then out ++ [trim cur] else out) ->
               c <> [] /\ trim c = c).
    { intros c Hc. destruct (nonempty (trim cur)) eqn:Hne; [|now apply Hout].
      apply elem_of_app in Hc as [Hc|Hc]; [now apply Hout|].
      apply list_elem_of_singleton in Hc. subst c.
      split; [now apply nonempty_true|apply trim_idem]. }
    intros c Hc.
    destruct (if nonempty (trim cur) then out ++ [trim cur] else out)
      as [|c0 chunks'].
    + left. now apply list_elem_of_singleton in Hc.
    + right. now apply Hall.
  - unfold smartChunkText. destruct (len txt <=? max)%Z; [discriminate|].
    destruct (fold_left _ _ _) as [out cur].
    destruct (if nonempty (trim cur) then out ++ [trim cur] else out);
      discriminate.
Qed.

Lemma chunks_never_blank_witness :
  lit "cc dd.  ee ff gg." <> [] /\
  trim (lit "cc dd.  ee ff gg.") = lit "cc dd.  ee ff gg.".
Proof.
  destruct (chunks_never_blank (lit "aa bb cc dd. ee ff gg. hh ii jj kk.") 12 12)
    as (Hchunks & _ & _).
  apply Hchunks.
  - vm_compute. reflexivity.
  - apply (bool_decide_unpack _). vm_compute. exact I.
Defined.

(** ** [extractJson] on a text that is JSON already *)

Lemma lex_top_ws (c : N) (ts : list token) (st : lstate) :
  is_ws c = true -> lex_top c = Some (ts, st) -> ts = [] /\ st = LTop.
Proof.
  unfold lex_top, json_ws, is_digit. intros Hws.
  repeat case_match; intros; simplify_eq; try (split; reflexivity);
    exfalso; unfold is_ws in Hws; char_facts; lia.
Qed.

Lemma lex_char_ok (st st' : lstate) (c : N) (ts : list token) :
  lstate_ok st = true -> lex_char st c = Some (ts, st') -> lstate_ok st' = true.
Proof.
  destruct st as [|acc|acc|acc k v|ph n|rest t]; cbn [lex_char lstate_ok].
  - intros _. unfold lex_top. repeat case_match; intros; simplify_eq; reflexivity.
  - intros _. repeat case_match; intros; simplify_eq; reflexivity.
  - intros _. unfold lex_escape. repeat case_match; intros; simplify_eq; reflexivity.
  - intros _. repeat case_match; intros; simplify_eq; reflexivity.
  - intros _. unfold lex_num, num_done, lex_top.
    repeat case_match; intros; simplify_eq; reflexivity.
  - intros Hok. destruct rest as [|d rest'].
    + unfold lex_top. repeat case_match; intros; simplify_eq; reflexivity.
    + cbn [forallb] in Hok. apply andb_true_iff in Hok as [_ Hok].
      case_match; intros; simplify_eq. exact Hok.
Qed.

(** White space that the lexer accepts at the very end changes nothing. *)
Lemma lex_char_ws_end (st st' : lstate) (c : N) (ts ts' : list token) :
  lstate_ok st = true -> is_ws c = true ->
  lex_char st c = Some (ts, st') -> lex_end st' = Some ts' ->
  lex_end st = Some (ts ++ ts').
Proof.
  intros Hok Hws.
  destruct st as [|acc|acc|acc k v|ph n|rest t]; cbn [lex_char].
  - intros Htop Hend. apply (lex_top_ws c) in Htop as [-> ->]; [|exact Hws].
    exact Hend.
  - repeat case_match; intros; simplify_eq; try discriminate;
      exfalso; unfold is_ws in Hws; char_facts; lia.
  - unfold lex_escape.
    repeat case_match; intros; simplify_eq; try discriminate;
      exfalso; unfold is_ws in Hws; char_facts; lia.
  - unfold hex_val, is_digit.
    repeat case_match; intros; simplify_eq; try discriminate;
      exfalso; unfold is_ws in Hws; char_facts; lia.
  - unfold lex_num, num_done, is_digit, is_e.
    repeat case_match; intros; simplify_eq; try discriminate;
      try (exfalso; unfold is_ws in Hws; char_facts; lia);
      match goal with
      | H : lex_top _ = Some _ |- _ =>
          apply (lex_top_ws c) in H as [-> ->]; [|exact Hws]
      end;
      cbn in *; simplify_eq; reflexivity.
  - destruct rest as [|d rest'].
    + case_match; [|discriminate]. destruct p as [ts0 st0].
      intros ? Hend. simplify_eq.
      match goal with
      | H : lex_top _ = Some _ |- _ =>
          apply (lex_top_ws c) in H as [-> ->]; [|exact Hws]
      end.
      cbn in *. simplify_eq. reflexivity.
    + cbn [lstate_ok forallb] in Hok. apply andb_true_iff in Hok as [Hd _].
      case_match; [|discriminate]. char_facts. subst d.
      rewrite Hws in Hd. discriminate.
Qed.

Lemma lex_trimEnd (s : jsstring) (st : lstate) (ts : list token) :
  lstate_ok st = true -> lex st s = Some ts -> lex st (trimEnd s) = Some ts.
Proof.
  revert st ts. induction s as [|c r IH]; intros st ts Hok; [tauto|].
  cbn [lex]. destruct (lex_char st c) as [[ts1 st']|] eqn:Hc; [|discriminate].
  destruct (lex st' r) as [ts2|] eqn:Hr; [|discriminate].
  intros Hts. simplify_eq.
  pose proof (IH st' ts2 (lex_char_ok _ _ _ _ Hok Hc) Hr) as IH'.
  cbn [trimEnd]. destruct (trimEnd r) as [|d r'] eqn:Ht.
  - cbn [lex] in IH'. destruct (is_ws c) eqn:Hws.
    + cbn [lex]. now apply (lex_char_ws_end st st' c).
    + cbn [lex]. now rewrite Hc, IH'.
  - cbn [lex]. rewrite Hc. cbn [lex] in IH'. now rewrite IH'.
Qed.

Lemma lex_trimStart (s : jsstring) (ts : list token) :
  lex LTop s = Some ts -> lex LTop (trimStart s) = Some ts.
Proof.
  induction s as [|c r IH]; [tauto|]. cbn [trimStart].
  destruct (is_ws c) eqn:Hws; [|tauto].
  cbn [lex lex_char]. destruct (lex_top c) as [[ts1 st']|] eqn:Hc; [|discriminate].
  apply (lex_top_ws c) in Hc as [-> ->]; [|exact Hws].
  destruct (lex LTop r) as [ts2|]; [|discriminate].
  intros H. simplify_eq. now apply IH.
Qed.

(** Trimming a text that [JSON.parse] accepts does not change its value. *)
Lemma JSON_parse_trim (s : jsstring) (v : json) :
  JSON_parse s = Some v -> JSON_parse (trim s) = Some v.
Proof.
  unfold JSON_parse, trim.
  destruct (lex LTop s) as [ts|] eqn:Hlex; [|discriminate].
  intros Hv. rewrite (lex_trimEnd _ LTop ts); [exact Hv|reflexivity|].
  now apply lex_trimStart.
Qed.

(** X5: on a text that [JSON.parse] itself accepts and that holds no run of
    six backticks, [extractJson] (of every variant) returns what
    [JSON.parse] returns: the cleaning and the search for braces never
    change the reading of a reply that is plain JSON. *)
Theorem extractJson_extends_parse (text : jsstring) (v : json) :
  JSON_parse text = Some v -> occurs fence text = false ->
  extractJson text = inr v /\ extractJson_plain text = inr v.
Proof.
  intros Hv Hocc.
  assert (H : extractJson text = inr v).
  { unfold extractJson, clean_reply, parse_or_braces.
    rewrite (delete_all_id _ _ _ Hocc). now rewrite (JSON_parse_trim _ _ Hv). }
  split; [exact H|]. now rewrite extractJson_plain_eq.
Qed.

Lemma extractJson_extends_parse_witness :
  extractJson (json_text " [ {'item': 'Bid Security', 'page': 12} ]  ")
  = inr (JArr [JObj [ (lit "item", JStr (lit "Bid Security"));
                      (lit "page", JNum false 12 0) ]]).
Proof.
  apply (extractJson_extends_parse
           (json_text " [ {'item': 'Bid Security', 'page': 12} ]  ")).
  - vm_compute. reflexivity.
  - vm_compute. reflexivity.
Defined.

(** ** What the background task writes *)

Lemma backfill_stored (j f : json) : backfill j = inr f -> stored_fields f.
Proof.
  destruct j; cbn [backfill]; intros H; simplify_eq.
  - right. eauto.
  - left. eexists. split; [reflexivity|]. intros k Hk.
    unfold obj_has, backfill_members. rewrite obj_get_backfill_fold.
    destruct (obj_get members k); [reflexivity|].
    now rewrite bool_decide_eq_true_2.
Qed.

Lemma normalize_submittal_stored (x y : json) :
  normalize_submittal x = inr y -> stored_submittal y.
Proof.
  unfold normalize_submittal. destruct x; cbn; intros H; simplify_eq;
    repeat eexists.
Qed.

Lemma rmap_normalize_stored (xs l : list json) :
  rmap normalize_submittal xs = inr l -> Forall stored_submittal l.
Proof.
  revert l. induction xs as [|x xs IH]; cbn [rmap]; intros l H.
  - simplify_eq. constructor.
  - destruct (normalize_submittal x) as [e|y] eqn:Hy; [discriminate|].
    cbn [rbind] in H. destruct (rmap normalize_submittal xs) as [e|ys];
      [discriminate|]. cbn [rbind] in H. simplify_eq.
    constructor; [now apply (normalize_submittal_stored x)|now apply IH].
Qed.

Lemma normalized_submittals_stored (data : json) (l : list json) :
  normalized_submittals data = inr l -> Forall stored_submittal l.
Proof.
  unfold normalized_submittals, submittals_or_empty.
  destruct (get_prop data (lit "submittals")) as [e|s]; [discriminate|].
  cbn [rbind]. unfold array_map. destruct (or_else s (JArr [])); try discriminate.
  apply rmap_normalize_stored.
Qed.

(** X7: whatever the outside world answers, every update that
    [processContract] makes is to its own document and sets a status; an
    update to failed carries an error message and neither fields nor
    submittals; an update to completed carries no error message, fields that
    are an object with every fixed key (or an array), and submittals that are
    all objects with exactly [item], [page] and [reason]. *)
Theorem processContract_updates (w : Async.env) (i : Async.id) (name : jsstring) :
  Forall (fun ev =>
            match ev with
            | Async.Update j p =>
                j = i /\
                (Async.set_status p = Some Async.processing /\
                 Async.set_fields p = None /\ Async.set_submittals p = None /\
                 Async.set_errorMessage p = None) \/
                j = i /\
                (Async.set_status p = Some Async.failed /\
                 Async.set_fields p = None /\ Async.set_submittals p = None /\
                 Async.set_errorMessage p <> None) \/
                j = i /\
                (Async.set_status p = Some Async.completed /\
                 Async.set_errorMessage p = None /\
                 exists f l, Async.set_fields p = Some f /\ stored_fields f /\
                             Async.set_submittals p = Some l /\
                             Forall stored_submittal l)
            | Async.Save _ _ | Async.Spawn _ | Async.Respond _ _ => False
            | _ => True
            end)
         (trace (Async.processContract w i name)).
Proof.
  destruct w as [up pdf ue sr fr uc uf].
  unfold Async.processContract.
  cbn [Async.update_processing Async.pdf_text Async.update_empty
       Async.submittals_reply Async.fields_reply Async.update_completed
       Async.update_failed].
  crack; each_event; try exact I;
    try (left; repeat split; reflexivity);
    try (right; left; repeat split; try reflexivity; discriminate).
  all: right; right; split; [reflexivity|]; split; [reflexivity|];
    split; [reflexivity|]; eexists _, _; split; [reflexivity|];
    split; [eapply backfill_stored; eassumption|];
    split; [reflexivity|];
    eapply normalized_submittals_stored; eassumption.
Qed.

(** ** Where the background task leaves its document *)




(** ** Documents stay *)

Lemma step_keeps_documents (s s' : Async.server) :
  server_inv s -> Async.step s s' ->
  forall i doc, Async.db s !! i = Some doc ->
    exists doc', Async.db s' !! i = Some doc' /\
                 Async.pdfName doc' = Async.pdfName doc.
Proof.
  intros Hinv Hstep j doc Hdoc.
  destruct Hstep as [s u name i Hf Hsv Hfresh
                    | s before after i ev rest Htasks | s].
  - rewrite (upload_store u name i _ Hf Hsv). cbn [Async.db].
    exists doc. rewrite lookup_insert_ne by congruence. now split.
  - cbn [Async.db]. destruct Hinv as [_ Hall].
    destruct (Hall i (ev :: rest)) as (d & Hd & Hchain).
    { rewrite Htasks. apply elem_of_app. right. apply list_elem_of_here. }
    destruct ev as [| | | k d0 | k p | |]; cbn [task_chain] in Hchain;
      cbn [Async.store_event]; try (exists doc; split; [exact Hdoc|reflexivity]).
    + destruct Hchain.
    + destruct Hchain as [-> _]. rewrite Hd.
      destruct (decide (j = i)) as [->|Hne].
      * rewrite lookup_insert_eq. exists (Async.apply_patch p d).
        split; [reflexivity|]. assert (doc = d) as -> by congruence.
        reflexivity.
      * rewrite lookup_insert_ne by congruence. exists doc. now split.
  - exists doc. now split.
Qed.

(** X9: along every run of the asynchronous server a stored document is
    never removed and never renamed: once the status endpoint answers 200
    for an identifier it does so ever after, with the same file name. *)
Theorem documents_persist (s s' : Async.server) :
  Async.reachable s -> rtc Async.step s s' ->
  forall i doc, Async.db s !! i = Some doc ->
    exists doc',
      Async.db s' !! i = Some doc' /\
      Async.pdfName doc' = Async.pdfName doc /\
      Async.get_status (Async.db s') i =
        (200%Z, Async.StatusBody i (Async.pdfName doc) (Async.status_of doc')
                  (Async.message_or_null (Async.errorMessage doc'))
                  (Async.hasFields doc') (Async.hasSubmittals doc')).
Proof.
  intros Hreach Hsteps.
  assert (Hmain : forall i doc, Async.db s !! i = Some doc ->
            exists doc', Async.db s' !! i = Some doc' /\
                         Async.pdfName doc' = Async.pdfName doc).
  { apply server_inv_reachable in Hreach.
    induction Hsteps as [s|s s1 s2 Hstep _ IH]; intros i doc Hdoc.
    - exists doc. now split.
    - destruct (step_keeps_documents s s1 Hreach Hstep i doc Hdoc)
        as (d1 & Hd1 & Hn1).
      destruct (IH (server_inv_step s s1 Hreach Hstep) i d1 Hd1)
        as (d2 & Hd2 & Hn2).
      exists d2. split; [exact Hd2|congruence]. }
  intros i doc Hdoc. destruct (Hmain i doc Hdoc) as (doc' & Hdoc' & Hname).
  exists doc'. split; [exact Hdoc'|]. split; [exact Hname|].
  unfold Async.get_status. now rewrite Hdoc', Hname.
Qed.

Lemma documents_persist_witness :
  let u := Async.mkUpload (Some (lit "tender.pdf")) (inr 1%nat)
             (Async.mkEnv (inr tt)
                (inr (Some (lit "Bid security is required.")))
                (inr tt)
                (inr (inr (json_text "{'submittals':[]}")))
                (inr (inr (json_text "{'ClientName':'Acme'}")))
                (inr tt) (inr tt)) in
  let script :=
    trace (Async.processContract (Async.background u) 1%nat (lit "tender.pdf")) in
  let s1 := Async.mkServer
              (Async.store_events (trace (Async.post_summarize u)) ∅)
              ([] ++ [(1%nat, script)]) in
  let s2 := Async.mkServer
              (Async.store_event
                 (Async.Update 1%nat (Async.status_patch Async.processing))
                 (Async.db s1))
              ([] ++ (1%nat, tl script) :: []) in
  exists doc',
    Async.db s2 !! 1%nat = Some doc' /\
    Async.pdfName doc' = Async.pdfName (Async.new_contract (lit "tender.pdf")) /\
    Async.get_status (Async.db s2) 1%nat =
      (200%Z,
       Async.StatusBody 1%nat
         (Async.pdfName (Async.new_contract (lit "tender.pdf")))
         (Async.status_of doc')
         (Async.message_or_null (Async.errorMessage doc'))
         (Async.hasFields doc') (Async.hasSubmittals doc')).
Proof.
  intros u script s1 s2.
  apply (documents_persist s1 s2) with (i := 1%nat)
                                       (doc := Async.new_contract (lit "tender.pdf")).
  - apply (Async.reach_step (Async.mkServer ∅ []) s1 Async.reach_init).
    apply (Async.step_upload (Async.mkServer ∅ []) u (lit "tender.pdf") 1%nat).
    + reflexivity.
    + reflexivity.
    + apply lookup_empty.
  - apply rtc_once.
    apply (Async.step_task s1 [] [] 1%nat
             (Async.Update 1%nat (Async.status_patch Async.processing))
             (tl script)).
    reflexivity.
  - unfold s1. cbn [Async.db].
    rewrite (upload_store u (lit "tender.pdf") 1%nat ∅ eq_refl eq_refl).
    apply lookup_insert_eq.
Defined.

(** ** One answer to every request *)

(** X10: whatever the request and the answers of the outside world, the
    upload handler of the combined analyser and that of the asynchronous
    analyser answer exactly once, and the answer is the last thing they
    do. *)
Theorem one_response_each :
  (forall w,
     length (List.filter is_response_sync (trace (Combined.post_summarize w)))
       = 1%nat /\
     exists code b,
       last (trace (Combined.post_summarize w)) = Some (Combined.Respond code b)) /\
  (forall u,
     length (List.filter is_response_async (trace (Async.post_summarize u)))
       = 1%nat /\
     exists code b,
       last (trace (Async.post_summarize u)) = Some (Async.Respond code b)).
Proof.
  split.
  - intros [f pdf sr fr sv]. unfold Combined.post_summarize.
    cbn [Combined.file Combined.pdf_text Combined.submittals_reply
         Combined.fields_reply Combined.saved_id].
    crack; cbn [bind try_catch call emit lift throw ret fst snd app];
      (split; [reflexivity|eexists _, _; reflexivity]).
  - intros [f sv w]. unfold Async.post_summarize.
    cbn [Async.file Async.saved_id].
    crack; cbn [bind try_catch call emit lift throw ret fst snd app];
      (split; [reflexivity|eexists _, _; reflexivity]).
Qed.

(** ** The answers of the combined analyser *)


(** ** The text cleaner of the summarizer *)

Lemma crlf_is_ws (c : N) : is_crlf c = true -> is_ws c = true /\ c <> space.
Proof.
  unfold is_crlf, space. intros H. char_facts; subst; split; (reflexivity || lia).
Qed.

Lemma collapse_crlf_spaced (b x : bool) (s : jsstring) :
  single_spaced b s = true -> collapse_crlf x s = s.
Proof.
  revert b x. induction s as [|c r IH]; intros b x; [reflexivity|].
  cbn [single_spaced collapse_crlf]. destruct (c =? space) eqn:Hs.
  - intros H. apply andb_true_iff in H as [_ H].
    destruct (is_crlf c) eqn:Hc.
    + apply crlf_is_ws in Hc as [_ Hc]. apply N.eqb_eq in Hs. contradiction.
    + f_equal. now apply (IH true).
  - intros H. apply andb_true_iff in H as [Hw H].
    destruct (is_crlf c) eqn:Hc.
    + apply crlf_is_ws in Hc as [Hc _]. rewrite Hc in Hw. discriminate.
    + f_equal. now apply (IH false).
Qed.

Lemma squeeze_spaced (s : jsstring) :
  (single_spaced false s = true -> squeeze Outside s = s) /\
  (single_spaced true s = true -> squeeze (One space) s = space :: s).
Proof.
  induction s as [|c r [IH1 IH2]]; [split; reflexivity|].
  cbn [single_spaced squeeze]. destruct (c =? space) eqn:Hs.
  - rewrite (space_is_ws c Hs). apply N.eqb_eq in Hs. subst c. split.
    + intros H. cbn in H. now apply IH2.
    + intros H. discriminate.
  - split; intros H; apply andb_true_iff in H as [Hw H];
      apply negb_true_iff in Hw; rewrite Hw; now rewrite (IH1 H).
Qed.

(** X12: [preprocessText] of the summarizer and [preprocess] of the
    analysers are the same function: after the first replacement has turned
    every run of white space into one space, the replacements of line
    breaks and of runs of two white space characters find nothing to
    replace. *)
Theorem preprocessText_is_preprocess (text : jsstring) :
  preprocessText text = preprocess text.
Proof.
  unfold preprocessText, preprocess.
  pose proof (collapse_ws_spaced false text) as H.
  rewrite (collapse_crlf_spaced false false _ H).
  now rewrite (proj1 (squeeze_spaced _) H).
Qed.

(** ** The summarizer: sections and consolidation *)

Import Summarizer.

(** The summary that the loop records for the section of index [k]. *)
Lemma sections_loop_spec (w : env) (total i : nat) (rest : list jsstring) :
  let '(evs, out) := sections_loop w total i rest in
  prompts_of evs = imap (fun k c => chunkPrompt (i + k + 1) total c) rest /\
  out = imap (fun k _ =>
                mkSection (i + k + 1)
                  match section_reply w (i + k) with
                  | inr s => s
                  | inl m => error_summary (i + k + 1) m
                  end) rest /\
  length (List.filter is_sleep evs) =
    length (List.filter
              (fun k => returned (section_reply w k) && (k <? total - 1)%nat)
              (seq i (length rest))) /\
  Forall (fun ev => (exists p, ev = Generate p) \/ ev = Sleep 1000) evs.
Proof.
  revert i. induction rest as [|c r IH]; intros i.
  - cbn. repeat split; constructor.
  - cbn [sections_loop]. specialize (IH (S i)).
    destruct (sections_loop w total (S i) r) as [evs out].
    destruct IH as (Hp & Ho & Hs & Hf).
    assert (Hp' : imap (fun k c0 => chunkPrompt (i + k + 1) total c0) (c :: r) =
                  chunkPrompt (i + 1) total c :: prompts_of evs).
    { cbn [imap]. rewrite Nat.add_0_r. f_equal. rewrite Hp.
      apply imap_ext. intros k x _. cbn. f_equal. lia. }
    assert (Ho' : forall s,
               mkSection (i + 1) s :: out =
               mkSection (i + 1) s ::
               imap ((fun k (_ : jsstring) =>
                        mkSection (i + k + 1)
                          match section_reply w (i + k) with
                          | inr s => s
                          | inl m => error_summary (i + k + 1) m
                          end) ∘ S) r).
    { intros s. f_equal. rewrite Ho. apply imap_ext. intros k x _. cbn.
      replace (i + S k)%nat with (S i + k)%nat by lia. reflexivity. }
    cbn [length seq List.filter].
    destruct (section_reply w i) as [m|s] eqn:Hr.
    + cbn [returned andb]. split; [|split; [|split]].
      * cbn [prompts_of]. now rewrite Hp'.
      * cbn [imap]. rewrite Nat.add_0_r, Hr. apply Ho'.
      * cbn [List.filter is_sleep]. exact Hs.
      * constructor; [left; eauto|exact Hf].
    + cbn [returned andb]. split; [|split; [|split]].
      * cbn [prompts_of].
        destruct (i <? total - 1)%nat; cbn [app prompts_of]; now rewrite Hp'.
      * cbn [imap]. rewrite Nat.add_0_r, Hr. apply Ho'.
      * cbn [List.filter is_sleep].
        destruct (i <? total - 1)%nat; cbn [app List.filter is_sleep length];
          now rewrite Hs.
      * constructor; [left; eauto|].
        destruct (i <? total - 1)%nat; cbn [app]; [constructor; [now right|]|];
          exact Hf.
Qed.




(** ** The summarizer: the upload handler *)

Lemma processMultipleChunks_run (w : env) (textChunks : list jsstring)
      (fileName : jsstring) :
  processMultipleChunks w textChunks fileName =
  ((sections_loop w (length textChunks) 0 textChunks).1
     ++ [Generate (consolidationPrompt
                     (sections_loop w (length textChunks) 0 textChunks).2)],
   match consolidation_reply w with
   | inl m => inl m
   | inr s => inr (mkAnalysis s (lit "gemini-pro") (lit "multi_chunk")
                              (length textChunks))
   end).
Proof.
  unfold processMultipleChunks.
  destruct (sections_loop w (length textChunks) 0 textChunks) as [evs out].
  destruct (consolidation_reply w); reflexivity.
Qed.

Lemma sections_loop_quiet (w : env) (total i : nat) (rest : list jsstring) :
  Forall quiet (sections_loop w total i rest).1.
Proof.
  pose proof (sections_loop_spec w total i rest) as H.
  destruct (sections_loop w total i rest) as [evs out].
  destruct H as (_ & _ & _ & H). cbn [fst].
  eapply Forall_impl; [exact H|]. intros ev [[p ->]| ->]; now split.
Qed.

(** What [generateContractSummary] does once the model is there. *)
Lemma generateContractSummary_run (w : env) (textChunks : list jsstring)
      (fileName : jsstring) :
  geminiModel w = true ->
  let wrap (m : jsstring) := lit "Contract analysis failed: " ++ m in
  generateContractSummary w textChunks fileName =
  match textChunks with
  | [text] =>
      ([Generate (singlePrompt fileName text)],
       match single_reply w with
       | inl m => inl (wrap m)
       | inr s => inr (mkAnalysis s (lit "gemini-pro") (lit "single_chunk") 1)
       end)
  | _ =>
      ((processMultipleChunks w textChunks fileName).1,
       match consolidation_reply w with
       | inl m => inl (wrap m)
       | inr s => inr (mkAnalysis s (lit "gemini-pro") (lit "multi_chunk")
                                  (length textChunks))
       end)
  end.
Proof.
  intros Hm wrap. unfold generateContractSummary. rewrite Hm. cbn [negb].
  destruct textChunks as [|c [|c' r]].
  - rewrite processMultipleChunks_run. cbn [fst snd].
    destruct (consolidation_reply w); cbn; now rewrite ?app_nil_r.
  - unfold processSingleChunk. destruct (single_reply w); reflexivity.
  - rewrite processMultipleChunks_run. cbn [fst snd catchT throwT].
    destruct (consolidation_reply w); cbn [catchT throwT];
      now rewrite ?app_nil_r.
Qed.

Lemma generateContractSummary_quiet (w : env) (textChunks : list jsstring)
      (fileName : jsstring) :
  Forall quiet (generateContractSummary w textChunks fileName).1.
Proof.
  unfold generateContractSummary. destruct (negb (geminiModel w)).
  { cbn. constructor. }
  assert (Hmulti : forall l,
    Forall quiet
      (catchT (processMultipleChunks w l fileName)
         (fun message =>
            throwT (lit "Contract analysis failed: " ++ message))).1).
  { intros l. rewrite processMultipleChunks_run.
    destruct (consolidation_reply w); cbn [catchT throwT fst];
      rewrite ?app_nil_r; (apply Forall_app; split;
        [apply sections_loop_quiet|repeat constructor]). }
  destruct textChunks as [|c [|c' r]]; [apply Hmulti| |apply Hmulti].
  unfold processSingleChunk.
  destruct (single_reply w); cbn; repeat constructor.
Qed.

Lemma occurs_app_r (p a b : jsstring) :
  occurs p b = true -> occurs p (a ++ b) = true.
Proof.
  intros H. induction a as [|c a IH]; [exact H|].
  cbn [app occurs]. rewrite IH. apply orb_true_r.
Qed.

Lemma failure_response_responds (w : env) (message : jsstring) :
  is_respond (failure_response w message) = true.
Proof. unfold failure_response. repeat case_match; reflexivity. Qed.

Lemma last_two {A} (l : list A) (x y : A) : last (l ++ [x; y]) = Some y.
Proof.
  replace (l ++ [x; y]) with ((l ++ [x]) ++ [y]) by now rewrite <- app_assoc.
  apply last_snoc.
Qed.

(** The run of the handler on a PDF with text, up to the answer. *)
Lemma post_summarize_run (w : env) (name : jsstring) (size : N)
      (text : jsstring) :
  file w = Some (name, size) ->
  geminiModel w = true ->
  file_read w = inr tt ->
  pdf_text w = inr (Some text) ->
  trim text <> [] ->
  let cleanedText := preprocessText text in
  let g := generateContractSummary w
             (smartChunkText cleanedText default_max default_ov) name in
  (post_summarize w).1 =
  ReadFile :: PdfParse :: g.1 ++
    [Unlink;
     match g.2 with
     | inl message => failure_response w message
     | inr a =>
         Respond 200 (Summary (summary a) name size
                              (length (split_space cleanedText)) (chunks a)
                              (processingMethod a) (model a))
     end].
Proof.
  intros Hfile Hm Hread Hpdf Htext cleanedText g.
  unfold post_summarize. rewrite Hfile, Hm, Hread, Hpdf. cbn [negb].
  assert (Hne : negb (nonempty text) || negb (nonempty (trim text)) = false).
  { destruct text as [|c r]; [now destruct Htext|].
    destruct (trim (c :: r)); [now destruct Htext|reflexivity]. }
  cbn [bindT callT app]. rewrite Hne. fold cleanedText. fold g.
  destruct g as [gevs [message|a]]; reflexivity.
Qed.

(** X14: When a file came and the model is there, the handler removes the
    uploaded file on every path, exactly once, and the removal is the last
    thing it does before its only answer: whether reading or parsing
    fails, the PDF has no text, the analysis fails or succeeds.  When the
    model is not there the only event is the answer 500 [AI_NOT_READY]:
    the uploaded file is left in place. *)
Theorem upload_removed_once (w : env) (f : jsstring * N) :
  file w = Some f ->
  if geminiModel w
  then exists pre st b,
         (post_summarize w).1 = pre ++ [Unlink; Respond st b] /\
         Forall quiet pre
  else (post_summarize w).1 =
       [Respond 500 (Failure (lit "AI_NOT_READY") None)].
Proof.
  intros Hfile. destruct f as [name size].
  destruct (geminiModel w) eqn:Hm.
  2:{ unfold post_summarize. now rewrite Hfile, Hm. }
  assert (Hfail : forall message, exists st b,
             failure_response w message = Respond st b).
  { intros message. unfold failure_response.
    repeat (case_match; eauto). }
  destruct (file_read w) as [m|[]] eqn:Hread.
  { destruct (Hfail m) as (st & b & E). exists [ReadFile], st, b.
    unfold post_summarize. rewrite Hfile, Hm, Hread. cbn. rewrite E.
    split; [reflexivity|]. repeat constructor. }
  destruct (pdf_text w) as [m|t] eqn:Hpdf.
  { destruct (Hfail m) as (st & b & E). exists [ReadFile; PdfParse], st, b.
    unfold post_summarize. rewrite Hfile, Hm, Hread, Hpdf. cbn. rewrite E.
    split; [reflexivity|]. repeat constructor. }
  assert (Hempty :
    (post_summarize w).1 =
    [ReadFile; PdfParse] ++
      [Unlink; Respond 400 (Failure (lit "EMPTY_PDF") None)] ->
    exists pre st b,
      (post_summarize w).1 = pre ++ [Unlink; Respond st b] /\
      Forall quiet pre).
  { intros E. exists [ReadFile; PdfParse], 400%Z, (Failure (lit "EMPTY_PDF") None).
    split; [exact E|repeat constructor]. }
  destruct t as [text|].
  2:{ apply Hempty. unfold post_summarize.
      now rewrite Hfile, Hm, Hread, Hpdf. }
  destruct (trim text) as [|c r] eqn:Ht.
  { apply Hempty. unfold post_summarize. rewrite Hfile, Hm, Hread, Hpdf.
    cbn [negb bindT callT]. rewrite Ht. cbn [nonempty negb].
    now rewrite orb_true_r. }
  assert (Hne : trim text <> []) by now rewrite Ht.
  pose proof (post_summarize_run w name size text Hfile Hm Hread Hpdf Hne)
    as Hrun. cbv zeta in Hrun.
  pose proof (generateContractSummary_quiet w
                (smartChunkText (preprocessText text) default_max default_ov)
                name) as Hq.
  destruct (generateContractSummary w _ name) as [gevs [message|a]];
    cbn [fst snd] in Hrun, Hq.
  - destruct (Hfail message) as (st & b & E). rewrite E in Hrun.
    exists (ReadFile :: PdfParse :: gevs), st, b. split; [exact Hrun|].
    repeat (constructor; [now split|]). exact Hq.
  - eexists (ReadFile :: PdfParse :: gevs), 200%Z, _. split; [exact Hrun|].
    repeat (constructor; [now split|]). exact Hq.
Qed.

Lemma upload_removed_once_witness :
  let w := mkEnv (Some (lit "tender.pdf", 2048%N)) true (inr tt)
                 (inr (Some (lit "Bid security is due. ")))
                 (inl (lit "quota"))
                 (fun _ => inl (lit "down")) (inl (lit "down")) false in
  exists pre st b,
    (post_summarize w).1 = pre ++ [Unlink; Respond st b] /\ Forall quiet pre.
Proof.
  exact (upload_removed_once
           (mkEnv (Some (lit "tender.pdf", 2048%N)) true (inr tt)
                  (inr (Some (lit "Bid security is due. ")))
                  (inl (lit "quota"))
                  (fun _ => inl (lit "down")) (inl (lit "down")) false)
           (lit "tender.pdf", 2048%N) eq_refl).
Defined.

(** X15: An error of the last call to the provider (the only call of a
    document of one chunk, the consolidation call otherwise) reaches the
    answer of the handler through the wrapper of
    [generateContractSummary], which puts [Contract analysis failed: ]
    before its message: the answer is the one that the handler gives to
    the wrapped message.  The wrapper does not hide a quota error: when
    the message of the provider mentions [QUOTA_EXCEEDED] or [quota], the
    answer is still 429 [QUOTA_EXCEEDED]. *)
Theorem provider_failure_answer (w : env) (name : jsstring) (size : N)
        (text m : jsstring) :
  file w = Some (name, size) ->
  geminiModel w = true ->
  file_read w = inr tt ->
  pdf_text w = inr (Some text) ->
  trim text <> [] ->
  single_reply w = inl m ->
  consolidation_reply w = inl m ->
  last (post_summarize w).1 =
    Some (failure_response w (lit "Contract analysis failed: " ++ m)) /\
  (occurs (lit "QUOTA_EXCEEDED") m = true \/ occurs (lit "quota") m = true ->
   last (post_summarize w).1 =
     Some (Respond 429 (Failure (lit "QUOTA_EXCEEDED") None))).
Proof.
  intros Hfile Hm Hread Hpdf Htext Hs Hc.
  pose proof (post_summarize_run w name size text Hfile Hm Hread Hpdf Htext)
    as Hrun. cbv zeta in Hrun.
  pose proof (generateContractSummary_run w
                (smartChunkText (preprocessText text) default_max default_ov)
                name Hm) as Hg. cbv zeta in Hg. rewrite Hs, Hc in Hg.
  assert (Hout :
    (generateContractSummary w
       (smartChunkText (preprocessText text) default_max default_ov) name).2 =
    inl (lit "Contract analysis failed: " ++ m)).
  { rewrite Hg. now destruct (smartChunkText _ _ _) as [|c [|c' r]]. }
  rewrite Hout in Hrun. rewrite Hrun.
  assert (Hlast : forall ev,
    last (ReadFile :: PdfParse ::
          (generateContractSummary w
             (smartChunkText (preprocessText text) default_max default_ov)
             name).1 ++ [Unlink; ev]) = Some ev).
  { intros ev. rewrite !app_comm_cons. apply last_two. }
  rewrite Hlast. split; [reflexivity|].
  intros Hq. f_equal. unfold failure_response.
  destruct Hq as [Hq|Hq];
    rewrite (occurs_app_r _ (lit "Contract analysis failed: ") m Hq);
    now rewrite ?orb_true_r.
Qed.

Lemma provider_failure_answer_witness :
  let w := mkEnv (Some (lit "tender.pdf", 2048%N)) true (inr tt)
                 (inr (Some (lit "Bid security is due. ")))
                 (inl (lit "429 quota exhausted"))
                 (fun _ => inr (lit "ok"))
                 (inl (lit "429 quota exhausted")) false in
  last (post_summarize w).1 =
    Some (Respond 429 (Failure (lit "QUOTA_EXCEEDED") None)).
Proof.
  refine (proj2 (provider_failure_answer
           (mkEnv (Some (lit "tender.pdf", 2048%N)) true (inr tt)
                  (inr (Some (lit "Bid security is due. ")))
                  (inl (lit "429 quota exhausted"))
                  (fun _ => inr (lit "ok"))
                  (inl (lit "429 quota exhausted")) false)
           (lit "tender.pdf") 2048%N (lit "Bid security is due. ")
           (lit "429 quota exhausted")
           eq_refl eq_refl eq_refl eq_refl _ eq_refl eq_refl) _).
  - vm_compute. discriminate.
  - right. vm_compute. reflexivity.
Defined.

(** X16: No failure of a call for a section can fail the request: when
    the upload is read and parsed, has text, and the last call to the
    provider succeeds (the only call of a document of one chunk, the
    consolidation call otherwise), the handler answers 200, whatever the
    calls for the sections answered; the summary it returns is the text of
    that last call, and the answer reports the number of chunks and the
    method. *)
Theorem section_failures_hidden (w : env) (name : jsstring) (size : N)
        (text s1 s2 : jsstring) :
  file w = Some (name, size) ->
  geminiModel w = true ->
  file_read w = inr tt ->
  pdf_text w = inr (Some text) ->
  trim text <> [] ->
  single_reply w = inr s1 ->
  consolidation_reply w = inr s2 ->
  exists s n method,
    last (post_summarize w).1 =
      Some (Respond 200
              (Summary s name size
                       (length (split_space (preprocessText text))) n
                       method (lit "gemini-pro"))) /\
    (n = 1%nat /\ s = s1 /\ method = lit "single_chunk" \/
     n <> 1%nat /\ s = s2 /\ method = lit "multi_chunk") /\
    n = length (smartChunkText (preprocessText text) default_max default_ov).
Proof.
  intros Hfile Hm Hread Hpdf Htext Hs Hc.
  pose proof (post_summarize_run w name size text Hfile Hm Hread Hpdf Htext)
    as Hrun. cbv zeta in Hrun.
  pose proof (generateContractSummary_run w
                (smartChunkText (preprocessText text) default_max default_ov)
                name Hm) as Hg. cbv zeta in Hg. rewrite Hs, Hc in Hg.
  rewrite Hrun, !app_comm_cons, last_two.
  destruct (smartChunkText _ _ _) as [|c [|c' r]] eqn:Hchunks;
    rewrite Hg; cbn [snd summary chunks processingMethod model length].
  - exists s2, 0%nat, (lit "multi_chunk"). split; [reflexivity|].
    split; [right; repeat split; lia|reflexivity].
  - exists s1, 1%nat, (lit "single_chunk"). split; [reflexivity|].
    split; [left; repeat split|reflexivity].
  - exists s2, (S (S (length r))), (lit "multi_chunk"). split; [reflexivity|].
    split; [right; repeat split; lia|reflexivity].
Qed.

Lemma section_failures_hidden_witness :
  let w := mkEnv (Some (lit "tender.pdf", 2048%N)) true (inr tt)
                 (inr (Some (lit "Bid security is due. ")))
                 (inr (lit "A summary"))
                 (fun _ => inl (lit "429 quota exhausted"))
                 (inr (lit "A consolidated summary")) false in
  exists s n method,
    last (post_summarize w).1 =
      Some (Respond 200
              (Summary s (lit "tender.pdf") 2048%N 4 n
                       method (lit "gemini-pro"))) /\
    (n = 1%nat /\ s = lit "A summary" /\ method = lit "single_chunk" \/
     n <> 1%nat /\ s = lit "A consolidated summary" /\
     method = lit "multi_chunk") /\
    n = 1%nat.
Proof.
  refine (section_failures_hidden
           (mkEnv (Some (lit "tender.pdf", 2048%N)) true (inr tt)
                  (inr (Some (lit "Bid security is due. ")))
                  (inr (lit "A summary"))
                  (fun _ => inl (lit "429 quota exhausted"))
                  (inr (lit "A consolidated summary")) false)
           (lit "tender.pdf") 2048%N (lit "Bid security is due. ")
           (lit "A summary") (lit "A consolidated summary")
           eq_refl eq_refl eq_refl eq_refl _ eq_refl eq_refl).
  vm_compute. discriminate.
Defined.

(** X17: A document whose cleaned text has at most 8000 characters costs
    one call to the provider and no pause: the prompt of the call carries
    the whole cleaned text, and the events of the run are the reading, the
    parsing, that call, the removal of the file and the answer. *)
Theorem short_document_one_call (w : env) (name : jsstring) (size : N)
        (text : jsstring) :
  file w = Some (name, size) ->
  geminiModel w = true ->
  file_read w = inr tt ->
  pdf_text w = inr (Some text) ->
  trim text <> [] ->
  (len (preprocessText text) <= default_max)%Z ->
  exists answer,
    (post_summarize w).1 =
      [ReadFile; PdfParse;
       Generate (singlePrompt name (preprocessText text));
       Unlink; answer] /\
    is_respond answer = true /\
    prompts_of (post_summarize w).1 =
      [singlePrompt name (preprocessText text)].
Proof.
  intros Hfile Hm Hread Hpdf Htext Hlen.
  pose proof (post_summarize_run w name size text Hfile Hm Hread Hpdf Htext)
    as Hrun. cbv zeta in Hrun.
  pose proof (generateContractSummary_run w
                (smartChunkText (preprocessText text) default_max default_ov)
                name Hm) as Hg. cbv zeta in Hg.
  assert (Hchunks :
    smartChunkText (preprocessText text) default_max default_ov =
    [preprocessText text]).
  { unfold smartChunkText. apply Z.leb_le in Hlen. now rewrite Hlen. }
  rewrite Hchunks in Hg, Hrun. rewrite Hg in Hrun. cbn [fst snd app] in Hrun.
  rewrite Hrun. destruct (single_reply w) as [m|s]; cbn [snd].
  - pose proof (failure_response_responds w
                  (lit "Contract analysis failed: " ++ m)) as Hr.
    eexists. split; [reflexivity|]. split; [exact Hr|].
    cbn [prompts_of]. now destruct (failure_response w _).
  - eexists. split; [reflexivity|]. split; reflexivity.
Qed.

Lemma short_document_one_call_witness :
  let w := mkEnv (Some (lit "tender.pdf", 2048%N)) true (inr tt)
                 (inr (Some (lit "Bid  security is due. ")))
                 (inr (lit "A summary"))
                 (fun _ => inr (lit "A section"))
                 (inr (lit "A consolidated summary")) false in
  exists answer,
    (post_summarize w).1 =
      [ReadFile; PdfParse;
       Generate (singlePrompt (lit "tender.pdf")
                              (lit "Bid security is due."));
       Unlink; answer] /\
    is_respond answer = true /\
    prompts_of (post_summarize w).1 =
      [singlePrompt (lit "tender.pdf") (lit "Bid security is due.")].
Proof.
  refine (short_document_one_call
           (mkEnv (Some (lit "tender.pdf", 2048%N)) true (inr tt)
                  (inr (Some (lit "Bid  security is due. ")))
                  (inr (lit "A summary"))
                  (fun _ => inr (lit "A section"))
                  (inr (lit "A consolidated summary")) false)
           (lit "tender.pdf") 2048%N (lit "Bid  security is due. ")
           eq_refl eq_refl eq_refl eq_refl _ _).
  - vm_compute. discriminate.
  - vm_compute. discriminate.
Defined.

(** ** Submittals on demand *)

(** X18: [POST /api/submittals/:id] of the variant with history, on a
    document that the store has.  If the document already holds
    submittals, the handler answers them at once: it asks for no file,
    parses nothing, calls no provider and saves nothing.  Otherwise the
    provider is called at most once, only when a file came whose text is
    not blank, and with the stored name of the document; the document is
    saved at most once, only after the reply was parsed, under the same id
    and with its name and fields unchanged; and the handler answers 200
    only when that save succeeded, with the submittals of the saved
    document. *)
Theorem submittals_on_demand (w : History.env) (i : Combined.id)
        (c : History.contract) :
  History.found w = inr (Some c) ->
  let run := trace (History.post_submittals w i) in
  if History.has_entries (History.submittals c)
  then run = [History.FindById i;
              History.Respond 200 (History.Submittals (History.submittals c))]
  else
    (forall p t, History.Generate p t ∈ run ->
       exists parsed,
         History.file w <> None /\
         History.pdf_text w = inr parsed /\
         preprocess (Combined.text_or_empty parsed) <> [] /\
         p = submittalPrompt (History.pdfName c)
                             (preprocess (Combined.text_or_empty parsed)) /\
         t = 1%Z) /\
    (forall j d, History.Save j d ∈ run ->
       j = i /\
       History.pdfName d = History.pdfName c /\
       History.fields d = History.fields c /\
       exists text data,
         History.submittals_reply w = inr (inr text) /\
         extractJson_plain text = inr data) /\
    (length (List.filter History.is_generate run) <= 1)%nat /\
    (length (List.filter History.is_save run) <= 1)%nat /\
    exists pre st b,
      run = pre ++ [History.Respond st b] /\
      (st = 200%Z ->
       History.saved w = inr tt /\
       exists d, last pre = Some (History.Save i d) /\
                 b = History.Submittals (History.submittals d)).
Proof.
  intros Hfound run. subst run. unfold History.post_submittals.
  rewrite Hfound. cbn [bind try_catch call emit lift throw ret fst snd app].
  destruct (History.has_entries (History.submittals c)) eqn:Hc.
  { reflexivity. }
  crack; cbn [bind try_catch call emit lift throw ret fst snd app].
  all: (split; [intros p t Hin; which_event Hin;
                try (inversion Hin; subst; clear Hin)|]).
  all: try (eexists; (repeat split); try reflexivity; try congruence;
            discriminate).
  all: (split; [intros ? ? Hin; which_event Hin;
                try (inversion Hin; subst; clear Hin)|]).
  all: try (repeat split; try reflexivity; eexists _, _;
            split; [reflexivity|eassumption]).
  all: (split; [cbn; lia|split; [cbn; lia|]]).
  all: repeat match goal with u : unit |- _ => destruct u end.
  all: first
         [ exists [History.FindById i]; eexists _, _;
           split; [reflexivity|]; discriminate
         | exists [History.FindById i; History.PdfParse]; eexists _, _;
           split; [reflexivity|]; discriminate
         | eexists [History.FindById i; History.PdfParse; _]; eexists _, _;
           split; [reflexivity|]; discriminate
         | eexists [History.FindById i; History.PdfParse; _; _];
           eexists _, _; split; [reflexivity|];
           first [ discriminate
                 | intros _; split; [reflexivity|];
                   eexists; split; reflexivity ] ].
Qed.

Lemma submittals_on_demand_witness :
  let c := History.mkContract (lit "tender.pdf") JNull
             [JObj [(lit "item", JStr (lit "Bid Security"))]] in
  let w := History.mkEnv (inr (Some c)) None (inl TypeError)
                         (inl TypeError) (fun _ => []) (inl TypeError) in
  trace (History.post_submittals w 7%nat) =
  [History.FindById 7%nat;
   History.Respond 200 (History.Submittals (History.submittals c))].
Proof.
  exact (submittals_on_demand
           (History.mkEnv
              (inr (Some (History.mkContract (lit "tender.pdf") JNull
                            [JObj [(lit "item", JStr (lit "Bid Security"))]])))
              None (inl TypeError) (inl TypeError) (fun _ => [])
              (inl TypeError))
           7%nat
           (History.mkContract (lit "tender.pdf") JNull
              [JObj [(lit "item", JStr (lit "Bid Security"))]])
           eq_refl).
Defined.
